(** * FeedContentDatabase: the ordered, fail-fast mutation pipeline

    A shallow embedding of components/feed/core/feed_content_database.cc.
    The class is a set of callback-driven handlers: every method makes at
    most one call to the underlying leveldb_proto store, posts at most one
    task or runs at most one caller callback, and returns.  The handlers
    are embedded one by one as transformers of a [World]; the loop that
    runs posted tasks and store completions on the owner sequence is the
    only recursive part.

    Histogram emission and the time stamps taken for it are left out. *)

From stdpp Require Import gmap strings list fin_maps.

Open Scope string_scope.
Open Scope list_scope.

(** ** Data model *)

(** Modelled from the spec: leveldb_proto's InitStatus, declared outside
    this file.  The spec gives the three initialisation states
    NotInitialized, Ready and Failed; the source names the first two
    kNotInitialized and kOK. *)
Inductive InitStatus := kNotInitialized | kOK | kError.

(** Modelled from the spec: the record ContentStorageProto generated from
    content_storage.proto, a key with an opaque blob of content data. *)
Record ContentStorageProto := mkProto { key : string; content_data : string }.

(** KeyAndData is a pair of strings (key, data). *)
Definition KeyAndData : Type := string * string.

(** Modelled from the spec: the type tag of ContentOperation, declared in
    feed_content_operation.h.  The four variants are the cases of the
    switch in PerformNextOperation; [CONTENT_OTHER] stands for any other
    value of the enum's underlying integer, which is what the switch's
    default branch receives. *)
Inductive OperationType :=
| CONTENT_DELETE
| CONTENT_DELETE_BY_PREFIX
| CONTENT_UPSERT
| CONTENT_DELETE_ALL
| CONTENT_OTHER (tag : nat).

(** Modelled from the spec: ContentOperation, an immutable tagged record
    read through type(), key(), value() and prefix(). *)
Record ContentOperation := mkOperation {
  type_ : OperationType;
  key_ : string;
  value_ : string;
  prefix_ : string
}.

(** Modelled from the spec: ContentMutation, the ordered queue of pending
    operations consumed strictly from the front. *)
Definition ContentMutation : Type := list ContentOperation.

Definition Empty (content_mutation : ContentMutation) : bool :=
  match content_mutation with [] => true | _ :: _ => false end.

(** TakeFristOperation pops the front of the queue; on an empty queue the
    C++ is undefined, hence the option. *)
Definition TakeFristOperation (content_mutation : ContentMutation)
  : option (ContentOperation * ContentMutation) :=
  match content_mutation with
  | [] => None
  | operation :: rest => Some (operation, rest)
  end.

(** The caller's callbacks are opaque to this class; they are named by a
    number and every run of one is recorded in the trace. *)
Definition ConfirmationCallback : Type := nat.
Definition ContentLoadCallback : Type := nat.
Definition ContentKeyCallback : Type := nat.

(** ** The two key filters *)

(** Modelled from the spec: base::StartsWith with CompareCase::SENSITIVE,
    defined in base/strings/string_util.cc.  The leading bytes of [str],
    as many as [search_for] has, are compared with [search_for] byte by
    byte; a [str] shorter than [search_for] never matches. *)
Definition StartsWith (str search_for : string) : bool :=
  if (String.length str <? String.length search_for)%nat then false
  else String.eqb (String.substring 0 (String.length search_for) str) search_for.

Definition DatabaseKeyFilter (key_set : gset string) (key : string) : bool :=
  bool_decide (key ∈ key_set).

Definition DatabasePrefixFilter (key_prefix : string) (key : string) : bool :=
  StartsWith key key_prefix.

(** base::BindRepeating(&DatabaseKeyFilter, key_set) and
    base::BindRepeating(&DatabasePrefixFilter, prefix): a function with
    its first argument bound. *)
Inductive KeyFilter :=
| BindDatabaseKeyFilter (key_set : gset string)
| BindDatabasePrefixFilter (key_prefix : string).

Definition RunFilter (filter : KeyFilter) (key : string) : bool :=
  match filter with
  | BindDatabaseKeyFilter key_set => DatabaseKeyFilter key_set key
  | BindDatabasePrefixFilter key_prefix => DatabasePrefixFilter key_prefix key
  end.

(** ** The store collaborator *)

Record ReadOptions := mkReadOptions { fill_cache : bool }.

Definition CreateReadOptions : ReadOptions := {| fill_cache := false |}.

(** The calls this class makes on storage_database_. *)
Inductive StoreCall :=
| Init
| UpdateEntries (entries_to_save : list (string * ContentStorageProto))
                (keys_to_remove : list string)
| UpdateEntriesWithRemoveFilter
    (entries_to_save : list (string * ContentStorageProto))
    (delete_key_filter : KeyFilter)
| LoadEntriesWithFilter (key_filter : KeyFilter) (options : ReadOptions)
                        (target_prefix : string)
| LoadKeys.

(** What the store hands to the completion callback of a call.  The
    result of a load comes as a std::unique_ptr to a vector, which may be
    null: [None] is the null pointer. *)
Inductive StoreReply :=
| InitReply (status : InitStatus)
| UpdateReply (success : bool)
| LoadReply (success : bool) (content : option (list ContentStorageProto))
| KeysReply (success : bool) (keys : option (list string)).

(** The completion callbacks this class binds with base::BindOnce: a
    method of the class together with the arguments bound to it. *)
Inductive Continuation :=
| BindOnDatabaseInitialized
| BindOnLoadEntriesForLoadContent (callback : ContentLoadCallback)
| BindOnLoadKeysForLoadAllContentKeys (callback : ContentKeyCallback)
| BindOnOperationCommitted (content_mutation : ContentMutation)
                           (callback : ConfirmationCallback).

(** Whether the store carries out a call. *)
Inductive Outcome :=
| Succeeds
| Fails.

Definition put_entries (entries : list (string * ContentStorageProto))
    (db : gmap string ContentStorageProto) : gmap string ContentStorageProto :=
  foldl (fun m e => <[e.1 := e.2]> m) db entries.

Definition remove_keys (keys : list string)
    (db : gmap string ContentStorageProto) : gmap string ContentStorageProto :=
  foldl (fun m k => delete k m) db keys.

(** Modelled from the spec: the effect of a call the store carries out,
    after the store interface of the spec: a bulk update adds or replaces
    the entries to save and deletes the keys to remove, a filtered delete
    removes every record whose key the predicate accepts; loads and Init
    leave the records alone. *)
Definition store_apply (call : StoreCall)
    (db : gmap string ContentStorageProto) : gmap string ContentStorageProto :=
  match call with
  | UpdateEntries entries_to_save keys_to_remove =>
      remove_keys keys_to_remove (put_entries entries_to_save db)
  | UpdateEntriesWithRemoveFilter entries_to_save delete_key_filter =>
      filter (fun kv => RunFilter delete_key_filter kv.1 = false)
             (put_entries entries_to_save db)
  | Init | LoadEntriesWithFilter _ _ _ | LoadKeys => db
  end.

(** Modelled from the spec: a filtered load that succeeds delivers the
    records whose key starts with the target prefix and is accepted by the
    predicate, in the store's own order; a load of the keys delivers every
    key the store holds. *)
Definition store_load (key_filter : KeyFilter) (target_prefix : string)
    (db : gmap string ContentStorageProto) : list ContentStorageProto :=
  List.map snd
    (List.filter
       (fun kv => StartsWith kv.1 target_prefix && RunFilter key_filter kv.1)
       (map_to_list db)).

Definition store_keys (db : gmap string ContentStorageProto) : list string :=
  List.map fst (map_to_list db).

(** Modelled from the spec: what the store reports for a call.  A call
    that fails reports failure; a read that fails comes with an empty
    result collection.  The store never hands over a null collection. *)
Definition store_reply (call : StoreCall) (o : Outcome)
    (db : gmap string ContentStorageProto) : StoreReply :=
  match call, o with
  | Init, Succeeds => InitReply kOK
  | Init, Fails => InitReply kError
  | UpdateEntries _ _, Succeeds => UpdateReply true
  | UpdateEntries _ _, Fails => UpdateReply false
  | UpdateEntriesWithRemoveFilter _ _, Succeeds => UpdateReply true
  | UpdateEntriesWithRemoveFilter _ _, Fails => UpdateReply false
  | LoadEntriesWithFilter key_filter _ target_prefix, Succeeds =>
      LoadReply true (Some (store_load key_filter target_prefix db))
  | LoadEntriesWithFilter _ _ _, Fails => LoadReply false (Some [])
  | LoadKeys, Succeeds => KeysReply true (Some (store_keys db))
  | LoadKeys, Fails => KeysReply false (Some [])
  end.

(** ** The world the handlers run in *)

(** A task waiting on the owner sequence: a store completion posted back
    by the store, or a confirmation posted through
    base::ThreadTaskRunnerHandle. *)
Inductive Task :=
| StoreDone (on_done : Continuation) (reply : StoreReply)
| Posted (callback : ConfirmationCallback) (success : bool).

(** What can be observed of a run, in the order it happens. *)
Inductive Event :=
| Dispatched (call : StoreCall)
| Completed (reply : StoreReply)
| Confirmed (callback : ConfirmationCallback) (success : bool)
| ContentLoaded (callback : ContentLoadCallback) (success : bool)
                (results : list KeyAndData)
| KeysLoaded (callback : ContentKeyCallback) (success : bool)
             (keys : list string)
| NullDereferenced.

Record World := mkWorld {
  database_status_ : InitStatus;
  storage_database_ : gmap string ContentStorageProto;
  outcomes : list Outcome;
  task_queue : list Task;
  trace : list Event
}.

Definition enqueue (t : Task) (w : World) : World :=
  {| database_status_ := database_status_ w;
     storage_database_ := storage_database_ w;
     outcomes := outcomes w;
     task_queue := task_queue w ++ [t];
     trace := trace w |}.

Definition record (e : Event) (w : World) : World :=
  {| database_status_ := database_status_ w;
     storage_database_ := storage_database_ w;
     outcomes := outcomes w;
     task_queue := task_queue w;
     trace := trace w ++ [e] |}.

Definition set_status (status : InitStatus) (w : World) : World :=
  {| database_status_ := status;
     storage_database_ := storage_database_ w;
     outcomes := outcomes w;
     task_queue := task_queue w;
     trace := trace w |}.

(** Modelled from the spec: a call on storage_database_.  The store takes
    the next outcome of the script (a script that has run out means
    success), carries the call out when it succeeds and leaves the records
    alone when it fails, and posts the completion to the owner sequence. *)
Definition call_store (call : StoreCall) (on_done : Continuation)
    (w : World) : World :=
  let o := hd Succeeds (outcomes w) in
  {| database_status_ := database_status_ w;
     storage_database_ :=
       match o with
       | Succeeds => store_apply call (storage_database_ w)
       | Fails => storage_database_ w
       end;
     outcomes := tl (outcomes w);
     task_queue :=
       task_queue w ++ [StoreDone on_done (store_reply call o (storage_database_ w))];
     trace := trace w ++ [Dispatched call] |}.

(** base::ThreadTaskRunnerHandle::Get()->PostTask(FROM_HERE,
    base::BindOnce(std::move(callback), success)). *)
Definition PostTask (callback : ConfirmationCallback) (success : bool)
  : World -> World :=
  enqueue (Posted callback success).

(** std::move(callback).Run(success). *)
Definition Run (callback : ConfirmationCallback) (success : bool)
  : World -> World :=
  record (Confirmed callback success).

(** ** The methods of FeedContentDatabase

    DCHECK_CALLED_ON_VALID_SEQUENCE holds by construction, every handler
    running on the one owner sequence of the world; the DCHECK_EQ on the
    operation type in the four operation handlers holds at their only call
    site, the switch of PerformNextOperation. *)

(** The constructor: the status starts as kNotInitialized and Init is
    called on the store with OnDatabaseInitialized bound. *)
Definition FeedContentDatabase_new
    (db : gmap string ContentStorageProto) (script : list Outcome) : World :=
  call_store Init BindOnDatabaseInitialized
    {| database_status_ := kNotInitialized;
       storage_database_ := db;
       outcomes := script;
       task_queue := [];
       trace := [] |}.

Definition IsInitialized (w : World) : bool :=
  match database_status_ w with kOK => true | _ => false end.

Definition LoadContent (keys : list string) (callback : ContentLoadCallback)
  : World -> World :=
  let key_set : gset string := list_to_set keys in
  call_store
    (LoadEntriesWithFilter (BindDatabaseKeyFilter key_set) CreateReadOptions
       (* target_prefix *) EmptyString)
    (BindOnLoadEntriesForLoadContent callback).

Definition LoadContentByPrefix (prefix : string) (callback : ContentLoadCallback)
  : World -> World :=
  call_store
    (LoadEntriesWithFilter (BindDatabasePrefixFilter prefix) CreateReadOptions
       (* target_prefix *) EmptyString)
    (BindOnLoadEntriesForLoadContent callback).

Definition LoadAllContentKeys (callback : ContentKeyCallback)
  : World -> World :=
  call_store LoadKeys (BindOnLoadKeysForLoadAllContentKeys callback).

Definition UpsertContent (operation : ContentOperation)
    (content_mutation : ContentMutation) (callback : ConfirmationCallback)
  : World -> World :=
  let proto := {| key := key_ operation; content_data := value_ operation |} in
  let contents_to_save := [(key proto, proto)] in
  call_store (UpdateEntries contents_to_save [])
             (BindOnOperationCommitted content_mutation callback).

Definition DeleteContent (operation : ContentOperation)
    (content_mutation : ContentMutation) (callback : ConfirmationCallback)
  : World -> World :=
  let content_to_delete := [key_ operation] in
  call_store (UpdateEntries [] content_to_delete)
             (BindOnOperationCommitted content_mutation callback).

Definition DeleteContentByPrefix (operation : ContentOperation)
    (content_mutation : ContentMutation) (callback : ConfirmationCallback)
  : World -> World :=
  call_store
    (UpdateEntriesWithRemoveFilter []
       (BindDatabasePrefixFilter (prefix_ operation)))
    (BindOnOperationCommitted content_mutation callback).

Definition DeleteAllContent (operation : ContentOperation)
    (content_mutation : ContentMutation) (callback : ConfirmationCallback)
  : World -> World :=
  let key_prefix := EmptyString in
  call_store
    (UpdateEntriesWithRemoveFilter [] (BindDatabasePrefixFilter key_prefix))
    (BindOnOperationCommitted content_mutation callback).

(** On an empty mutation the DCHECK fails and the C++ is undefined; the
    embedding leaves the world alone there.  CommitContentMutation and
    OnOperationCommitted never call it so. *)
Definition PerformNextOperation (content_mutation : ContentMutation)
    (callback : ConfirmationCallback) : World -> World :=
  match TakeFristOperation content_mutation with
  | None => fun w => w
  | Some (operation, content_mutation) =>
      match type_ operation with
      | CONTENT_DELETE =>
          DeleteContent operation content_mutation callback
      | CONTENT_DELETE_BY_PREFIX =>
          DeleteContentByPrefix operation content_mutation callback
      | CONTENT_UPSERT =>
          UpsertContent operation content_mutation callback
      | CONTENT_DELETE_ALL =>
          DeleteAllContent operation content_mutation callback
      | CONTENT_OTHER _ =>
          (* Operation type is not supported, therefore failing immediately. *)
          PostTask callback false
      end
  end.

Definition CommitContentMutation (content_mutation : ContentMutation)
    (callback : ConfirmationCallback) : World -> World :=
  if Empty content_mutation then PostTask callback true
  else PerformNextOperation content_mutation callback.

Definition OnDatabaseInitialized (status : InitStatus) : World -> World :=
  set_status status.

(** The loop runs over the vector behind content whatever the success
    flag is; on a null content the dereference is undefined, which the
    trace records. *)
Definition OnLoadEntriesForLoadContent (callback : ContentLoadCallback)
    (success : bool) (content : option (list ContentStorageProto))
  : World -> World :=
  match content with
  | None => record NullDereferenced
  | Some content =>
      let results : list KeyAndData :=
        List.map (fun proto => (key proto, content_data proto)) content in
      record (ContentLoaded callback success results)
  end.

(** The keys behind the pointer are moved to the callback whatever the
    success flag is; on a null keys the dereference is undefined, which
    the trace records. *)
Definition OnLoadKeysForLoadAllContentKeys (callback : ContentKeyCallback)
    (success : bool) (keys : option (list string)) : World -> World :=
  match keys with
  | None => record NullDereferenced
  | Some keys => record (KeysLoaded callback success keys)
  end.

Definition OnOperationCommitted (content_mutation : ContentMutation)
    (callback : ConfirmationCallback) (success : bool) : World -> World :=
  if negb success then Run callback success
  else if Empty content_mutation then Run callback success
  else PerformNextOperation content_mutation callback.

(** ** The owner sequence *)

(** Running a bound completion callback on the store's reply.  The C++
    types pair every continuation with the reply of its own call; the
    other combinations cannot arise and do nothing. *)
Definition invoke (on_done : Continuation) (reply : StoreReply)
  : World -> World :=
  match on_done, reply with
  | BindOnDatabaseInitialized, InitReply status =>
      OnDatabaseInitialized status
  | BindOnLoadEntriesForLoadContent callback, LoadReply success content =>
      OnLoadEntriesForLoadContent callback success content
  | BindOnLoadKeysForLoadAllContentKeys callback, KeysReply success keys =>
      OnLoadKeysForLoadAllContentKeys callback success keys
  | BindOnOperationCommitted content_mutation callback, UpdateReply success =>
      OnOperationCommitted content_mutation callback success
  | _, _ => fun w => w
  end.

Definition run_task (t : Task) (w : World) : World :=
  match t with
  | StoreDone on_done reply => invoke on_done reply (record (Completed reply) w)
  | Posted callback success => Run callback success w
  end.

(** One turn of the owner sequence: the oldest waiting task runs. *)
Definition step (w : World) : World :=
  match task_queue w with
  | [] => w
  | t :: rest =>
      run_task t
        {| database_status_ := database_status_ w;
           storage_database_ := storage_database_ w;
           outcomes := outcomes w;
           task_queue := rest;
           trace := trace w |}
  end.

Fixpoint run (fuel : nat) (w : World) : World :=
  match fuel with
  | 0 => w
  | S fuel => run fuel (step w)
  end.

(** An upper bound on the turns still to come: a pending completion of an
    operation may start every operation left in its mutation. *)
Definition task_weight (t : Task) : nat :=
  match t with
  | StoreDone (BindOnOperationCommitted content_mutation _) _ =>
      S (length content_mutation)
  | _ => 1
  end.

Definition pending (w : World) : nat :=
  list_sum (List.map task_weight (task_queue w)).

(** Running the owner sequence until no task is waiting. *)
Definition quiesce (w : World) : World := run (pending w) w.

(** ** Vocabulary of the specification *)

(** A world in which nothing is waiting and nothing has happened yet. *)
Definition idle (status : InitStatus) (db : gmap string ContentStorageProto)
    (script : list Outcome) : World :=
  {| database_status_ := status;
     storage_database_ := db;
     outcomes := script;
     task_queue := [];
     trace := [] |}.

(** Modelled from the spec: what each operation variant means for the
    records of the store.  Upsert adds or replaces one record, Delete
    removes one key, DeleteByPrefix removes the records whose key starts
    with the prefix, DeleteAll removes every record. *)
Definition apply_operation (operation : ContentOperation)
    (db : gmap string ContentStorageProto) : gmap string ContentStorageProto :=
  match type_ operation with
  | CONTENT_UPSERT =>
      <[key_ operation := mkProto (key_ operation) (value_ operation)]> db
  | CONTENT_DELETE => delete (key_ operation) db
  | CONTENT_DELETE_BY_PREFIX =>
      filter (fun kv => StartsWith kv.1 (prefix_ operation) = false) db
  | CONTENT_DELETE_ALL => ∅
  | CONTENT_OTHER _ => db
  end.

(** The four recognised variants. *)
Definition supported (operation : ContentOperation) : bool :=
  match type_ operation with CONTENT_OTHER _ => false | _ => true end.

(** A store call carries out an operation when, on every store, it has
    the effect the operation stands for. *)
Definition realises (call : StoreCall) (operation : ContentOperation) : Prop :=
  forall db, store_apply call db = apply_operation operation db.

Definition succeeded (o : Outcome) : bool :=
  match o with Succeeds => true | Fails => false end.

(** The trace of store calls made one at a time: each call is followed by
    its successful completion before the next call is made. *)
Definition one_at_a_time (calls : list StoreCall) : list Event :=
  flat_map (fun call => [Dispatched call; Completed (UpdateReply true)]) calls.

(** The runs of confirmation callbacks in a trace, in order. *)
Definition confirmations (tr : list Event)
  : list (ConfirmationCallback * bool) :=
  flat_map
    (fun e => match e with Confirmed callback success => [(callback, success)]
                         | _ => [] end) tr.

(** The store calls in a trace, in order. *)
Definition dispatches (tr : list Event) : list StoreCall :=
  flat_map (fun e => match e with Dispatched call => [call] | _ => [] end) tr.

(** The records handed to content-load callbacks in a trace. *)
Definition loaded_records (tr : list Event) : list KeyAndData :=
  flat_map
    (fun e => match e with ContentLoaded _ _ results => results | _ => [] end) tr.

(** Modelled from the spec: the four operation variants, Upsert(key,
    value), Delete(key), DeleteByPrefix(prefix) and DeleteAll. *)
Definition Upsert (k v : string) : ContentOperation :=
  {| type_ := CONTENT_UPSERT; key_ := k; value_ := v; prefix_ := EmptyString |}.
Definition Delete (k : string) : ContentOperation :=
  {| type_ := CONTENT_DELETE; key_ := k; value_ := EmptyString;
     prefix_ := EmptyString |}.
Definition DeleteByPrefix (p : string) : ContentOperation :=
  {| type_ := CONTENT_DELETE_BY_PREFIX; key_ := EmptyString;
     value_ := EmptyString; prefix_ := p |}.
Definition DeleteAll : ContentOperation :=
  {| type_ := CONTENT_DELETE_ALL; key_ := EmptyString; value_ := EmptyString;
     prefix_ := EmptyString |}.

(** ** The sequential reading of a commit

    What the callback chain of CommitContentMutation, PerformNextOperation
    and OnOperationCommitted amounts to when it is read as a loop over the
    batch: how many operations the store carries out, how many store calls
    are made, and the flag the confirmation runs with. *)

(** The operations at the front of the batch that the store carries out:
    the loop stops at the first operation that is not recognised or that
    the store fails. *)
Fixpoint applied_count (batch : ContentMutation) (os : list Outcome) : nat :=
  match batch with
  | [] => 0
  | operation :: rest =>
      if supported operation then
        match hd Succeeds os with
        | Succeeds => S (applied_count rest (tl os))
        | Fails => 0
        end
      else 0
  end.

(** The store calls made: one for every operation carried out, and one
    more for the operation the store fails, if there is one. *)
Fixpoint dispatched_count (batch : ContentMutation) (os : list Outcome) : nat :=
  match batch with
  | [] => 0
  | operation :: rest =>
      if supported operation then
        S (match hd Succeeds os with
           | Succeeds => dispatched_count rest (tl os)
           | Fails => 0
           end)
      else 0
  end.

(** The flag of the confirmation. *)
Fixpoint commit_success (batch : ContentMutation) (os : list Outcome) : bool :=
  match batch with
  | [] => true
  | operation :: rest =>
      supported operation &&
      match hd Succeeds os with
      | Succeeds => commit_success rest (tl os)
      | Fails => false
      end
  end.

(** Every record is stored under its own key. *)
Definition keyed (db : gmap string ContentStorageProto) : Prop :=
  map_Forall (fun k proto => key proto = k) db.

(** Whether an operation can change the record stored under a key. *)
Definition touches (operation : ContentOperation) (k : string) : bool :=
  match type_ operation with
  | CONTENT_UPSERT | CONTENT_DELETE => String.eqb (key_ operation) k
  | CONTENT_DELETE_BY_PREFIX => StartsWith k (prefix_ operation)
  | CONTENT_DELETE_ALL => true
  | CONTENT_OTHER _ => false
  end.

(** ** The owner sequence drains *)

Section Loop.

Implicit Types (w : World) (t : Task).

Lemma task_weight_pos t : 0 < task_weight t.
Proof. destruct t as [[] ?|]; simpl; lia. Qed.

Lemma pending_idle w : pending w = 0 <-> task_queue w = [].
Proof.
  unfold pending. destruct (task_queue w) as [|t q]; simpl; [tauto|].
  pose proof (task_weight_pos t). split; [lia | discriminate].
Qed.

Lemma step_idle w : task_queue w = [] -> step w = w.
Proof. unfold step. now intros ->. Qed.

Lemma run_idle fuel w : task_queue w = [] -> run fuel w = w.
Proof.
  induction fuel as [|fuel IH]; simpl; [reflexivity|].
  intros Hq. rewrite (step_idle w Hq). now apply IH.
Qed.

Lemma run_add n k w : run (n + k) w = run k (run n w).
Proof. revert w. induction n as [|n IH]; simpl; intros w; [reflexivity | apply IH]. Qed.

(** Every turn uses up some of the pending work. *)
Lemma pending_step w : task_queue w <> [] -> pending (step w) < pending w.
Proof.
  unfold step, pending. destruct (task_queue w) as [|t q]; [congruence|].
  intros _. destruct t as [on_done reply | callback success]; simpl; [|lia].
  destruct on_done as [| cb | cb | m cb],
           reply as [st | ok | ok [c|] | ok [ks|]];
    simpl; try lia.
  unfold OnOperationCommitted, PerformNextOperation.
  destruct ok; simpl; [|lia].
  destruct m as [|operation m]; simpl; [lia|].
  destruct (type_ operation); simpl;
    rewrite List.map_app, list_sum_app; simpl; lia.
Qed.

Lemma run_drains fuel w : pending w <= fuel -> task_queue (run fuel w) = [].
Proof.
  revert w. induction fuel as [|fuel IH]; simpl; intros w Hle.
  - apply pending_idle. lia.
  - destruct (task_queue w) as [|t q] eqn:Hq.
    + rewrite (step_idle w Hq). rewrite run_idle; assumption.
    + apply IH. assert (task_queue w <> []) as Hne by congruence.
      pose proof (pending_step w Hne). lia.
Qed.

Lemma quiesce_drains w : task_queue (quiesce w) = [].
Proof. apply run_drains. reflexivity. Qed.

(** Any fuel beyond the pending work changes nothing. *)
Lemma run_enough fuel w : pending w <= fuel -> run fuel w = quiesce w.
Proof.
  intros Hle. replace fuel with (pending w + (fuel - pending w)) by lia.
  rewrite run_add. apply run_idle, quiesce_drains.
Qed.

Lemma quiesce_step w : quiesce w = quiesce (step w).
Proof.
  destruct (task_queue w) as [|t q] eqn:Hq.
  - now rewrite (step_idle w Hq).
  - assert (task_queue w <> []) as Hne by congruence.
    pose proof (pending_step w Hne) as Hlt.
    unfold quiesce at 1. destruct (pending w) as [|p]; [lia|].
    simpl. apply run_enough. lia.
Qed.

Lemma quiesce_idle w : task_queue w = [] -> quiesce w = w.
Proof. intros Hq. unfold quiesce. now apply run_idle. Qed.

End Loop.

(** ** Dispatching one operation *)

Section Dispatch.

Implicit Types (w : World) (db : gmap string ContentStorageProto).

Lemma StartsWith_empty s : StartsWith s EmptyString = true.
Proof. unfold StartsWith. simpl. destruct s; reflexivity. Qed.

Lemma delete_all_empties db :
  filter (fun kv : string * ContentStorageProto =>
            StartsWith kv.1 EmptyString = false) db = ∅.
Proof.
  apply map_eq. intros k. rewrite lookup_empty. apply map_lookup_filter_None.
  right. intros x _. simpl. rewrite StartsWith_empty. discriminate.
Qed.

(** A supported operation at the front of the mutation becomes exactly one
    store call that carries it out, with OnOperationCommitted bound to the
    rest of the mutation. *)
Lemma perform_supported operation :
  supported operation = true ->
  exists call,
    realises call operation /\
    (forall o db, store_reply call o db = UpdateReply (succeeded o)) /\
    forall rest callback w,
      PerformNextOperation (operation :: rest) callback w
      = call_store call (BindOnOperationCommitted rest callback) w.
Proof.
  unfold supported, realises, apply_operation, PerformNextOperation. simpl.
  destruct (type_ operation); intros Hs; try discriminate; eexists;
    (split; [|split; [|reflexivity]]).
  all: try (intros [] ?; reflexivity).
  - reflexivity.
  - reflexivity.
  - reflexivity.
  - intros db. simpl. apply delete_all_empties.
Qed.

(** The turn of the owner sequence after a store call made while idle:
    the completion is observed and OnOperationCommitted runs. *)
Lemma dispatch_turn call rest callback w :
  task_queue w = [] ->
  (forall o db, store_reply call o db = UpdateReply (succeeded o)) ->
  let o := hd Succeeds (outcomes w) in
  quiesce (call_store call (BindOnOperationCommitted rest callback) w)
  = quiesce
      (OnOperationCommitted rest callback (succeeded o)
         {| database_status_ := database_status_ w;
            storage_database_ :=
              if succeeded o then store_apply call (storage_database_ w)
              else storage_database_ w;
            outcomes := tl (outcomes w);
            task_queue := [];
            trace := trace w ++ [Dispatched call; Completed (UpdateReply (succeeded o))] |}).
Proof.
  intros Hq Hreply o. rewrite quiesce_step.
  unfold step, call_store. simpl. rewrite Hq. simpl.
  rewrite Hreply. fold o. unfold record. simpl.
  rewrite <- app_assoc. simpl. destruct o; reflexivity.
Qed.

End Dispatch.

(** ** Committing a mutation *)

Section Commit.

Implicit Types (w : World) (db : gmap string ContentStorageProto).

Lemma script_head_succeeds n (os : list Outcome) :
  Forall (eq Succeeds) (take (S n) os) ->
  hd Succeeds os = Succeeds /\
  Forall (eq Succeeds) (take n (tl os)) /\
  drop (S n) os = drop n (tl os).
Proof.
  destruct os as [|o os]; simpl.
  - rewrite take_nil, drop_nil. auto.
  - intros H. apply Forall_cons in H as [<- H]. auto.
Qed.

(** With every store call succeeding, the operations of a mutation are
    carried out front to back, one store call each, each call made only
    after the completion of the one before, and the confirmation runs
    with true at the end. *)
Lemma perform_all_succeed rest : forall operation callback w,
  forallb supported (operation :: rest) = true ->
  task_queue w = [] ->
  Forall (eq Succeeds) (take (S (length rest)) (outcomes w)) ->
  exists calls,
    Forall2 realises calls (operation :: rest) /\
    quiesce (PerformNextOperation (operation :: rest) callback w)
    = {| database_status_ := database_status_ w;
         storage_database_ :=
           foldl (fun db op => apply_operation op db) (storage_database_ w)
                 (operation :: rest);
         outcomes := drop (S (length rest)) (outcomes w);
         task_queue := [];
         trace := trace w ++ one_at_a_time calls ++ [Confirmed callback true] |}.
Proof.
  induction rest as [|next rest IH]; intros operation callback w Hsup Hq Hok.
  all: simpl in Hsup; apply andb_prop in Hsup as [Hop Hrest].
  all: destruct (perform_supported operation Hop) as (call & Hreal & Hreply & ->).
  all: rewrite dispatch_turn by assumption; cbv zeta.
  all: destruct (script_head_succeeds _ _ Hok) as (-> & Htl & ->).
  all: simpl succeeded; cbv iota.
  - unfold OnOperationCommitted. simpl. rewrite quiesce_idle by reflexivity.
    exists [call]. split; [repeat constructor; assumption|].
    unfold Run, record. simpl. rewrite Hreal, <- app_assoc. reflexivity.
  - change (OnOperationCommitted (next :: rest) callback true)
      with (PerformNextOperation (next :: rest) callback).
    edestruct (IH next callback) as (calls & Hcalls & ->);
      [exact Hrest | reflexivity | exact Htl |].
    exists (call :: calls). split; [constructor; assumption|].
    simpl. rewrite Hreal, <- app_assoc. reflexivity.
Qed.

Lemma OnOperationCommitted_next operation rest callback :
  OnOperationCommitted (operation :: rest) callback true
  = PerformNextOperation (operation :: rest) callback.
Proof. reflexivity. Qed.

(** When the store fails an operation after carrying out the ones before
    it, the confirmation runs with false right after the failed
    completion and nothing more is sent to the store. *)
Lemma perform_first_failure pre : forall operation post callback w later,
  forallb supported pre = true ->
  supported operation = true ->
  task_queue w = [] ->
  outcomes w = replicate (length pre) Succeeds ++ Fails :: later ->
  exists calls call,
    Forall2 realises calls pre /\
    realises call operation /\
    quiesce (PerformNextOperation (pre ++ operation :: post) callback w)
    = {| database_status_ := database_status_ w;
         storage_database_ :=
           foldl (fun db op => apply_operation op db) (storage_database_ w) pre;
         outcomes := later;
         task_queue := [];
         trace := trace w ++ one_at_a_time calls
                  ++ [Dispatched call; Completed (UpdateReply false);
                      Confirmed callback false] |}.
Proof.
  induction pre as [|first pre IH];
    intros operation post callback w later Hpre Hop Hq Hscript.
  - destruct (perform_supported operation Hop) as (call & Hreal & Hreply & Hcall).
    simpl app. rewrite Hcall, dispatch_turn by assumption. cbv zeta.
    rewrite Hscript. simpl.
    unfold OnOperationCommitted. simpl. rewrite quiesce_idle by reflexivity.
    exists [], call. split; [constructor|]. split; [assumption|].
    unfold Run, record. simpl. rewrite <- app_assoc. reflexivity.
  - simpl in Hpre. apply andb_prop in Hpre as [Hfirst Hpre].
    destruct (perform_supported first Hfirst) as (call & Hreal & Hreply & Hcall).
    simpl app. rewrite Hcall, dispatch_turn by assumption. cbv zeta.
    rewrite Hscript. simpl hd. simpl tl. simpl succeeded. cbv iota.
    destruct (pre ++ operation :: post) as [|next rest] eqn:Hrest;
      [destruct pre; discriminate|].
    rewrite OnOperationCommitted_next, <- Hrest.
    edestruct (IH operation post callback) as (calls & call' & Hcalls & Hreal' & ->);
      [exact Hpre | exact Hop | reflexivity | reflexivity |].
    exists (call :: calls), call'.
    split; [constructor; assumption|]. split; [assumption|].
    simpl. rewrite Hreal, <- app_assoc. reflexivity.
Qed.

Lemma confirmations_app tr1 tr2 :
  confirmations (tr1 ++ tr2) = confirmations tr1 ++ confirmations tr2.
Proof. apply flat_map_app. Qed.

(** An operation outside the four variants: the confirmation is posted
    with false and runs on the next turn; the store is not called. *)
Lemma perform_unsupported operation rest callback w :
  supported operation = false ->
  PerformNextOperation (operation :: rest) callback w
  = PostTask callback false w.
Proof.
  unfold supported, PerformNextOperation. simpl.
  destruct (type_ operation); intros Hs; try discriminate. reflexivity.
Qed.

Lemma posted_turn callback success w :
  task_queue w = [] ->
  quiesce (PostTask callback success w) = record (Confirmed callback success) w.
Proof.
  intros Hq. rewrite quiesce_step. unfold step, PostTask, enqueue. simpl.
  rewrite Hq. simpl. rewrite quiesce_idle by reflexivity.
  unfold Run, record. simpl. rewrite <- Hq. reflexivity.
Qed.

(** Whatever the operations are and whatever the store answers, a started
    mutation ends with exactly one run of its confirmation. *)
Lemma perform_confirms_once rest : forall operation callback w,
  task_queue w = [] ->
  exists success,
    confirmations (trace (quiesce (PerformNextOperation (operation :: rest) callback w)))
    = confirmations (trace w) ++ [(callback, success)].
Proof.
  induction rest as [|next rest IH]; intros operation callback w Hq.
  all: destruct (supported operation) eqn:Hop;
    [ destruct (perform_supported operation Hop) as (call & _ & Hreply & ->);
      rewrite dispatch_turn by assumption; cbv zeta
    | rewrite perform_unsupported, posted_turn by assumption;
      exists false; simpl; apply confirmations_app ].
  - exists (succeeded (hd Succeeds (outcomes w))).
    unfold OnOperationCommitted.
    destruct (succeeded (hd Succeeds (outcomes w)));
      rewrite quiesce_idle by reflexivity; simpl;
      rewrite !confirmations_app; simpl; rewrite app_nil_r; reflexivity.
  - destruct (succeeded (hd Succeeds (outcomes w))).
    + rewrite OnOperationCommitted_next.
      edestruct (IH next callback) as (success & ->); [reflexivity|].
      exists success. simpl. rewrite confirmations_app. simpl.
      rewrite app_nil_r. reflexivity.
    + exists false. unfold OnOperationCommitted.
      rewrite quiesce_idle by reflexivity. simpl.
      rewrite !confirmations_app. simpl. rewrite app_nil_r. reflexivity.
Qed.

End Commit.

(** ** The commit path: ordering, halting, confirmation *)

Lemma dispatches_app tr1 tr2 :
  dispatches (tr1 ++ tr2) = dispatches tr1 ++ dispatches tr2.
Proof. apply flat_map_app. Qed.

Lemma dispatches_one_at_a_time calls : dispatches (one_at_a_time calls) = calls.
Proof. induction calls as [|call calls IH]; simpl; [|rewrite IH]; reflexivity. Qed.

Lemma commit_nonempty operation rest callback :
  CommitContentMutation (operation :: rest) callback
  = PerformNextOperation (operation :: rest) callback.
Proof. reflexivity. Qed.

(** C1.  For every non-empty mutation of recognised operations committed
    while nothing else is waiting, if the store carries out every call,
    then there is one store call per operation, the i-th call carrying out
    the i-th operation; the calls are made in the order of the batch, each
    one only after the completion of the one before has been observed;
    the records end as the operations applied front to back; and the last
    thing that happens is the confirmation callback run with true. *)
Theorem commit_applies_in_order batch callback w :
  batch <> [] ->
  forallb supported batch = true ->
  task_queue w = [] ->
  Forall (eq Succeeds) (take (length batch) (outcomes w)) ->
  exists calls,
    Forall2 realises calls batch /\
    dispatches (trace (quiesce (CommitContentMutation batch callback w)))
    = dispatches (trace w) ++ calls /\
    quiesce (CommitContentMutation batch callback w)
    = {| database_status_ := database_status_ w;
         storage_database_ :=
           foldl (fun db op => apply_operation op db) (storage_database_ w) batch;
         outcomes := drop (length batch) (outcomes w);
         task_queue := [];
         trace := trace w ++ one_at_a_time calls ++ [Confirmed callback true] |}.
Proof.
  destruct batch as [|operation rest]; [congruence|].
  intros _ Hsup Hq Hok. rewrite commit_nonempty.
  destruct (perform_all_succeed rest operation callback w Hsup Hq Hok)
    as (calls & Hcalls & ->).
  exists calls. split; [assumption|]. split; [|reflexivity].
  simpl. rewrite !dispatches_app, dispatches_one_at_a_time. simpl.
  rewrite app_nil_r. reflexivity.
Qed.

Lemma commit_applies_in_order_witness :
  [Upsert "a" "1"; Upsert "b" "2"; DeleteByPrefix "a"] <> [] /\
  exists calls,
    Forall2 realises calls [Upsert "a" "1"; Upsert "b" "2"; DeleteByPrefix "a"] /\
    dispatches
      (trace (quiesce (CommitContentMutation
                         [Upsert "a" "1"; Upsert "b" "2"; DeleteByPrefix "a"] 7
                         (idle kOK ∅ []))))
    = calls /\
    quiesce (CommitContentMutation
               [Upsert "a" "1"; Upsert "b" "2"; DeleteByPrefix "a"] 7
               (idle kOK ∅ []))
    = {| database_status_ := kOK;
         storage_database_ :=
           foldl (fun db op => apply_operation op db) ∅
                 [Upsert "a" "1"; Upsert "b" "2"; DeleteByPrefix "a"];
         outcomes := [];
         task_queue := [];
         trace := one_at_a_time calls ++ [Confirmed 7 true] |}.
Proof.
  split; [discriminate|].
  apply (commit_applies_in_order
           [Upsert "a" "1"; Upsert "b" "2"; DeleteByPrefix "a"] 7 (idle kOK ∅ [])).
  - discriminate.
  - reflexivity.
  - reflexivity.
  - simpl. constructor.
Defined.

(** C2.  For every batch in which the store carries out the operations
    before position k and fails the operation at position k, the store is
    called for the operations up to and including k and for nothing after
    it, the confirmation callback runs with false right after the failed
    completion, and the records are those the operations before k left:
    nothing is rolled back. *)
Theorem commit_halts_on_first_failure
    pre operation post callback w later :
  forallb supported pre = true ->
  supported operation = true ->
  task_queue w = [] ->
  outcomes w = replicate (length pre) Succeeds ++ Fails :: later ->
  exists calls call,
    Forall2 realises calls pre /\
    realises call operation /\
    dispatches
      (trace (quiesce (CommitContentMutation (pre ++ operation :: post) callback w)))
    = dispatches (trace w) ++ calls ++ [call] /\
    quiesce (CommitContentMutation (pre ++ operation :: post) callback w)
    = {| database_status_ := database_status_ w;
         storage_database_ :=
           foldl (fun db op => apply_operation op db) (storage_database_ w) pre;
         outcomes := later;
         task_queue := [];
         trace := trace w ++ one_at_a_time calls
                  ++ [Dispatched call; Completed (UpdateReply false);
                      Confirmed callback false] |}.
Proof.
  intros Hpre Hop Hq Hscript.
  destruct (perform_first_failure pre operation post callback w later
              Hpre Hop Hq Hscript) as (calls & call & Hcalls & Hcall & Heq).
  exists calls, call. split; [assumption|]. split; [assumption|].
  assert (CommitContentMutation (pre ++ operation :: post) callback
          = PerformNextOperation (pre ++ operation :: post) callback) as ->
    by (destruct pre; reflexivity).
  rewrite Heq. split; [|reflexivity].
  simpl. rewrite !dispatches_app, dispatches_one_at_a_time. reflexivity.
Qed.

Lemma commit_halts_on_first_failure_witness :
  exists calls call,
    Forall2 realises calls [Upsert "x" "1"] /\
    realises call (Delete "q") /\
    dispatches
      (trace (quiesce (CommitContentMutation
                         ([Upsert "x" "1"] ++ Delete "q" :: [Upsert "y" "2"]) 7
                         (idle kOK ∅ [Succeeds; Fails; Succeeds]))))
    = calls ++ [call] /\
    quiesce (CommitContentMutation
               ([Upsert "x" "1"] ++ Delete "q" :: [Upsert "y" "2"]) 7
               (idle kOK ∅ [Succeeds; Fails; Succeeds]))
    = {| database_status_ := kOK;
         storage_database_ :=
           foldl (fun db op => apply_operation op db) ∅ [Upsert "x" "1"];
         outcomes := [Succeeds];
         task_queue := [];
         trace := one_at_a_time calls
                  ++ [Dispatched call; Completed (UpdateReply false);
                      Confirmed 7 false] |}.
Proof.
  apply (commit_halts_on_first_failure
           [Upsert "x" "1"] (Delete "q") [Upsert "y" "2"] 7
           (idle kOK ∅ [Succeeds; Fails; Succeeds]) [Succeeds]);
    reflexivity.
Defined.

(** C3.  For every call of CommitContentMutation with an empty mutation,
    the confirmation is posted with true and no call is made on the store:
    the records, the script of the store and the trace are as they were;
    on the next turn of the owner sequence the callback runs with true,
    and that is all that happens. *)
Theorem commit_empty_confirms_without_store callback w :
  task_queue w = [] ->
  CommitContentMutation [] callback w
  = {| database_status_ := database_status_ w;
       storage_database_ := storage_database_ w;
       outcomes := outcomes w;
       task_queue := [Posted callback true];
       trace := trace w |} /\
  quiesce (CommitContentMutation [] callback w)
  = {| database_status_ := database_status_ w;
       storage_database_ := storage_database_ w;
       outcomes := outcomes w;
       task_queue := [];
       trace := trace w ++ [Confirmed callback true] |} /\
  dispatches (trace (quiesce (CommitContentMutation [] callback w)))
  = dispatches (trace w).
Proof.
  intros Hq.
  assert (CommitContentMutation [] callback w = PostTask callback true w) as ->
    by reflexivity.
  rewrite posted_turn by assumption.
  unfold PostTask, enqueue, record. rewrite Hq. simpl.
  repeat split. rewrite dispatches_app. simpl. apply app_nil_r.
Qed.

Lemma commit_empty_confirms_without_store_witness :
  CommitContentMutation [] 7 (idle kOK {["a" := mkProto "a" "1"]} [Fails])
  = {| database_status_ := kOK;
       storage_database_ := {["a" := mkProto "a" "1"]};
       outcomes := [Fails];
       task_queue := [Posted 7 true];
       trace := [] |} /\
  quiesce (CommitContentMutation [] 7
             (idle kOK {["a" := mkProto "a" "1"]} [Fails]))
  = {| database_status_ := kOK;
       storage_database_ := {["a" := mkProto "a" "1"]};
       outcomes := [Fails];
       task_queue := [];
       trace := [Confirmed 7 true] |} /\
  dispatches
    (trace (quiesce (CommitContentMutation [] 7
                       (idle kOK {["a" := mkProto "a" "1"]} [Fails]))))
  = [].
Proof.
  exact (commit_empty_confirms_without_store 7
           (idle kOK {["a" := mkProto "a" "1"]} [Fails]) eq_refl).
Defined.

(** C4.  For every call of CommitContentMutation made while nothing else
    is waiting, whatever the mutation holds and whatever the store answers,
    once the owner sequence has drained the confirmation callback has run
    exactly once more than before: the runs of confirmations in the trace
    are the earlier ones followed by a single run of this callback. *)
Theorem confirmation_runs_exactly_once content_mutation callback w :
  task_queue w = [] ->
  exists success,
    confirmations
      (trace (quiesce (CommitContentMutation content_mutation callback w)))
    = confirmations (trace w) ++ [(callback, success)].
Proof.
  intros Hq. destruct content_mutation as [|operation rest].
  - exists true.
    assert (CommitContentMutation [] callback w = PostTask callback true w) as ->
      by reflexivity.
    rewrite posted_turn by assumption. simpl. apply confirmations_app.
  - rewrite commit_nonempty. now apply perform_confirms_once.
Qed.

Lemma confirmation_runs_exactly_once_witness :
  exists success,
    confirmations
      (trace (quiesce (CommitContentMutation
                         [Upsert "a" "1";
                          {| type_ := CONTENT_OTHER 9; key_ := "k";
                             value_ := "v"; prefix_ := "p" |};
                          DeleteAll] 7
                         (idle kNotInitialized ∅ [Succeeds; Fails]))))
    = [] ++ [(7, success)].
Proof.
  apply (confirmation_runs_exactly_once
           [Upsert "a" "1";
            {| type_ := CONTENT_OTHER 9; key_ := "k"; value_ := "v"; prefix_ := "p" |};
            DeleteAll] 7
           (idle kNotInitialized ∅ [Succeeds; Fails])).
  reflexivity.
Defined.

(** C8.  For every operation whose type tag is none of the four
    recognised variants, PerformNextOperation posts the confirmation with
    false and makes no call on the store: records, script and trace are
    as they were, the operations behind it are dropped, and on the next
    turn the callback runs with false. *)
Theorem unsupported_operation_fails_immediately operation tag rest callback w :
  type_ operation = CONTENT_OTHER tag ->
  task_queue w = [] ->
  PerformNextOperation (operation :: rest) callback w
  = {| database_status_ := database_status_ w;
       storage_database_ := storage_database_ w;
       outcomes := outcomes w;
       task_queue := [Posted callback false];
       trace := trace w |} /\
  quiesce (PerformNextOperation (operation :: rest) callback w)
  = {| database_status_ := database_status_ w;
       storage_database_ := storage_database_ w;
       outcomes := outcomes w;
       task_queue := [];
       trace := trace w ++ [Confirmed callback false] |} /\
  dispatches (trace (quiesce (PerformNextOperation (operation :: rest) callback w)))
  = dispatches (trace w).
Proof.
  intros Htag Hq.
  assert (supported operation = false) as Hs by (unfold supported; now rewrite Htag).
  rewrite perform_unsupported by assumption.
  rewrite posted_turn by assumption.
  unfold PostTask, enqueue, record. rewrite Hq. simpl.
  repeat split. rewrite dispatches_app. simpl. apply app_nil_r.
Qed.

Lemma unsupported_operation_fails_immediately_witness :
  PerformNextOperation
    ({| type_ := CONTENT_OTHER 9; key_ := "k"; value_ := "v"; prefix_ := "p" |}
       :: [Upsert "a" "1"]) 7 (idle kOK ∅ [])
  = {| database_status_ := kOK;
       storage_database_ := ∅;
       outcomes := [];
       task_queue := [Posted 7 false];
       trace := [] |} /\
  quiesce
    (PerformNextOperation
       ({| type_ := CONTENT_OTHER 9; key_ := "k"; value_ := "v"; prefix_ := "p" |}
          :: [Upsert "a" "1"]) 7 (idle kOK ∅ []))
  = {| database_status_ := kOK;
       storage_database_ := ∅;
       outcomes := [];
       task_queue := [];
       trace := [Confirmed 7 false] |} /\
  dispatches
    (trace
       (quiesce
          (PerformNextOperation
             ({| type_ := CONTENT_OTHER 9; key_ := "k"; value_ := "v";
                 prefix_ := "p" |} :: [Upsert "a" "1"]) 7 (idle kOK ∅ []))))
  = [].
Proof.
  apply (unsupported_operation_fails_immediately
           {| type_ := CONTENT_OTHER 9; key_ := "k"; value_ := "v";
              prefix_ := "p" |}
           9 [Upsert "a" "1"] 7 (idle kOK ∅ []));
    reflexivity.
Defined.

(** ** The filters and the read path *)

Section Reads.

Implicit Types (w : World) (db : gmap string ContentStorageProto).

Lemma StartsWith_cons d s c p :
  StartsWith (String d s) (String c p) = Ascii.eqb d c && StartsWith s p.
Proof.
  unfold StartsWith. simpl.
  change (S (String.length s) <? S (String.length p))%nat
    with (String.length s <? String.length p)%nat.
  destruct (String.length s <? String.length p)%nat, (Ascii.eqb d c); reflexivity.
Qed.

Lemma StartsWith_nil c p : StartsWith EmptyString (String c p) = false.
Proof. reflexivity. Qed.

(** A string starts with a prefix exactly when it is the prefix followed
    by something. *)
Lemma StartsWith_spec prefix : forall key,
  StartsWith key prefix = true <-> exists rest, key = String.append prefix rest.
Proof.
  induction prefix as [|c prefix IH]; intros key.
  - rewrite StartsWith_empty. split; [|reflexivity]. exists key. reflexivity.
  - destruct key as [|d key].
    + rewrite StartsWith_nil. split; [discriminate|]. intros [rest H]. discriminate.
    + rewrite StartsWith_cons. rewrite andb_true_iff, IH, Ascii.eqb_eq.
      split.
      * intros [-> [rest ->]]. exists rest. reflexivity.
      * intros [rest H]. simpl in H. injection H as -> ->. eauto.
Qed.

(** The turns of the owner sequence after a filtered load made while
    idle: the completion is observed and the records delivered by the
    store are handed to the callback with the store's flag. *)
Lemma load_turn key_filter options target_prefix callback w :
  task_queue w = [] ->
  let call := LoadEntriesWithFilter key_filter options target_prefix in
  let success := succeeded (hd Succeeds (outcomes w)) in
  let content :=
    match hd Succeeds (outcomes w) with
    | Succeeds => store_load key_filter target_prefix (storage_database_ w)
    | Fails => []
    end in
  quiesce (call_store call (BindOnLoadEntriesForLoadContent callback) w)
  = {| database_status_ := database_status_ w;
       storage_database_ := storage_database_ w;
       outcomes := tl (outcomes w);
       task_queue := [];
       trace := trace w
                ++ [Dispatched call; Completed (LoadReply success (Some content));
                    ContentLoaded callback success
                      (List.map (fun proto => (key proto, content_data proto))
                                content)] |}.
Proof.
  intros Hq call success content. rewrite quiesce_step.
  unfold step, call_store. simpl. rewrite Hq. simpl.
  subst call success content.
  destruct (hd Succeeds (outcomes w)); simpl;
    rewrite quiesce_idle by reflexivity;
    unfold OnLoadEntriesForLoadContent, OnLoadKeysForLoadAllContentKeys, record;
    simpl; rewrite <- ?app_assoc; reflexivity.
Qed.

Lemma keys_turn callback w :
  task_queue w = [] ->
  let success := succeeded (hd Succeeds (outcomes w)) in
  let keys :=
    match hd Succeeds (outcomes w) with
    | Succeeds => store_keys (storage_database_ w)
    | Fails => []
    end in
  quiesce (LoadAllContentKeys callback w)
  = {| database_status_ := database_status_ w;
       storage_database_ := storage_database_ w;
       outcomes := tl (outcomes w);
       task_queue := [];
       trace := trace w
                ++ [Dispatched LoadKeys; Completed (KeysReply success (Some keys));
                    KeysLoaded callback success keys] |}.
Proof.
  intros Hq success keys. rewrite quiesce_step.
  unfold LoadAllContentKeys, step, call_store. simpl. rewrite Hq. simpl.
  subst success keys.
  destruct (hd Succeeds (outcomes w)); simpl;
    rewrite quiesce_idle by reflexivity;
    unfold OnLoadEntriesForLoadContent, OnLoadKeysForLoadAllContentKeys, record;
    simpl; rewrite <- ?app_assoc; reflexivity.
Qed.

Lemma loaded_records_app tr1 tr2 :
  loaded_records (tr1 ++ tr2) = loaded_records tr1 ++ loaded_records tr2.
Proof. apply flat_map_app. Qed.

(** The records a successful load by prefix delivers are those stored
    under a key that starts with the prefix. *)
Lemma store_load_prefix prefix db proto :
  In proto (store_load (BindDatabasePrefixFilter prefix) EmptyString db)
  <-> exists k, db !! k = Some proto /\ StartsWith k prefix = true.
Proof.
  unfold store_load. rewrite in_map_iff. split.
  - intros [[k v] [<- Hin]]. apply filter_In in Hin as [Hin Hf].
    simpl in *. rewrite StartsWith_empty in Hf. simpl in Hf.
    apply list_elem_of_In, elem_of_map_to_list in Hin. eauto.
  - intros [k [Hk Hf]]. exists (k, proto). split; [reflexivity|].
    apply filter_In. split.
    + apply list_elem_of_In, elem_of_map_to_list. exact Hk.
    + simpl. rewrite StartsWith_empty. exact Hf.
Qed.

(** The records a delete by prefix removes are those stored under a key
    that starts with the prefix. *)
Lemma delete_prefix_removes prefix db k proto :
  db !! k = Some proto ->
  (store_apply (UpdateEntriesWithRemoveFilter [] (BindDatabasePrefixFilter prefix)) db
     !! k = None
   <-> StartsWith k prefix = true).
Proof.
  intros Hk. simpl. rewrite map_lookup_filter_None. simpl. split.
  - intros [H | H]; [unfold put_entries in H; simpl in H; congruence|].
    specialize (H proto Hk). unfold DatabasePrefixFilter in H.
    destruct (StartsWith k prefix); congruence.
  - intros Hf. right. intros x _. unfold DatabasePrefixFilter.
    rewrite Hf. discriminate.
Qed.

End Reads.

Lemma commit_single_storage operation callback status db script :
  supported operation = true ->
  storage_database_
    (quiesce (CommitContentMutation [operation] callback
                (idle status db (Succeeds :: script))))
  = apply_operation operation db.
Proof.
  intros Hop. rewrite commit_nonempty.
  edestruct (perform_all_succeed [] operation callback
               (idle status db (Succeeds :: script))) as (calls & _ & ->).
  - simpl. now rewrite Hop.
  - reflexivity.
  - simpl. repeat constructor.
  - reflexivity.
Qed.

(** C6.  The prefix predicate accepts a key exactly when the key is the
    prefix followed by some (possibly empty) rest, compared byte by byte
    with no case folding, so the empty prefix accepts every key.  Reading
    by prefix and deleting by prefix hand the store the same bound
    predicate, DatabasePrefixFilter with the prefix bound; hence, on any
    store, the records a successful read by a prefix delivers are exactly
    the records a successful delete by that prefix removes. *)
Theorem prefix_filter_shared_by_read_and_delete prefix :
  (forall k,
     DatabasePrefixFilter prefix k = true
     <-> exists rest, k = String.append prefix rest) /\
  (forall k, DatabasePrefixFilter EmptyString k = true) /\
  (forall callback w,
     dispatches (trace (LoadContentByPrefix prefix callback w))
     = dispatches (trace w)
       ++ [LoadEntriesWithFilter (BindDatabasePrefixFilter prefix)
             CreateReadOptions EmptyString]) /\
  (forall rest callback w,
     dispatches (trace (DeleteContentByPrefix (DeleteByPrefix prefix) rest callback w))
     = dispatches (trace w)
       ++ [UpdateEntriesWithRemoveFilter [] (BindDatabasePrefixFilter prefix)]) /\
  (forall k, RunFilter (BindDatabasePrefixFilter prefix) k
             = DatabasePrefixFilter prefix k) /\
  (forall status db script load_callback callback kd,
     In kd
       (loaded_records
          (trace (quiesce (LoadContentByPrefix prefix load_callback
                             (idle status db (Succeeds :: script))))))
     <-> exists k proto,
           db !! k = Some proto /\
           storage_database_
             (quiesce (CommitContentMutation [DeleteByPrefix prefix] callback
                         (idle status db (Succeeds :: script)))) !! k = None /\
           kd = (key proto, content_data proto)).
Proof.
  split; [intros k; apply StartsWith_spec|].
  split; [intros k; apply StartsWith_empty|].
  split; [intros callback w; simpl; rewrite dispatches_app; reflexivity|].
  split; [intros rest callback w; simpl; rewrite dispatches_app; reflexivity|].
  split; [reflexivity|].
  intros status db script load_callback callback kd.
  rewrite commit_single_storage by reflexivity.
  unfold LoadContentByPrefix. rewrite load_turn by reflexivity.
  simpl. rewrite app_nil_r, in_map_iff. split.
  - intros [proto [<- Hin]]. apply store_load_prefix in Hin as [k [Hk Hf]].
    exists k, proto. split; [assumption|]. split; [|reflexivity].
    apply (delete_prefix_removes prefix db k proto Hk). exact Hf.
  - intros (k & proto & Hk & Hgone & ->). exists proto. split; [reflexivity|].
    apply store_load_prefix. exists k. split; [assumption|].
    apply (delete_prefix_removes prefix db k proto Hk). exact Hgone.
Qed.

Lemma script_second_succeeds (os : list Outcome) :
  Forall (eq Succeeds) (take 2 os) -> hd Succeeds (drop 1 os) = Succeeds.
Proof.
  destruct os as [|o1 [|o2 os]]; simpl; try reflexivity.
  intros H. apply Forall_cons in H as [_ H]. apply Forall_cons in H as [<- _].
  reflexivity.
Qed.

Lemma delete_all_as_prefix op_all op_prefix rest callback w :
  type_ op_all = CONTENT_DELETE_ALL ->
  type_ op_prefix = CONTENT_DELETE_BY_PREFIX ->
  prefix_ op_prefix = EmptyString ->
  PerformNextOperation (op_all :: rest) callback w
  = PerformNextOperation (op_prefix :: rest) callback w.
Proof.
  intros Hall Hpre Hempty. unfold PerformNextOperation. simpl.
  rewrite Hall, Hpre. unfold DeleteAllContent, DeleteContentByPrefix.
  rewrite Hempty. reflexivity.
Qed.

(** C5.  Committing a DeleteAll operation and committing a DeleteByPrefix
    operation with the empty prefix do the same thing: both make the one
    store call UpdateEntriesWithRemoveFilter with DatabasePrefixFilter
    bound to the empty string, a predicate that accepts every key.  When
    the store carries the call out, no record is left after either, and a
    LoadAllContentKeys that follows hands its callback the empty list. *)
Theorem delete_all_is_delete_by_empty_prefix
    op_all op_prefix callback keys_callback w :
  type_ op_all = CONTENT_DELETE_ALL ->
  type_ op_prefix = CONTENT_DELETE_BY_PREFIX ->
  prefix_ op_prefix = EmptyString ->
  task_queue w = [] ->
  Forall (eq Succeeds) (take 2 (outcomes w)) ->
  CommitContentMutation [op_all] callback w
  = CommitContentMutation [op_prefix] callback w /\
  dispatches (trace (CommitContentMutation [op_all] callback w))
  = dispatches (trace w)
    ++ [UpdateEntriesWithRemoveFilter [] (BindDatabasePrefixFilter EmptyString)] /\
  (forall k, RunFilter (BindDatabasePrefixFilter EmptyString) k = true) /\
  forall operation, operation = op_all \/ operation = op_prefix ->
    storage_database_ (quiesce (CommitContentMutation [operation] callback w)) = ∅ /\
    trace (quiesce (LoadAllContentKeys keys_callback
                      (quiesce (CommitContentMutation [operation] callback w))))
    = trace (quiesce (CommitContentMutation [operation] callback w))
      ++ [Dispatched LoadKeys; Completed (KeysReply true (Some []));
          KeysLoaded keys_callback true []].
Proof.
  intros Hall Hpre Hempty Hq Hok.
  assert (CommitContentMutation [op_all] callback w
          = CommitContentMutation [op_prefix] callback w) as Hsame
    by (rewrite !commit_nonempty; now apply delete_all_as_prefix).
  split; [exact Hsame|].
  split.
  { rewrite commit_nonempty. unfold PerformNextOperation. simpl. rewrite Hall.
    simpl. rewrite dispatches_app. reflexivity. }
  split; [intros k; apply StartsWith_empty|].
  assert (forall operation, operation = op_all \/ operation = op_prefix ->
            CommitContentMutation [operation] callback w
            = CommitContentMutation [op_all] callback w) as Heither
    by (intros operation [-> | ->]; [reflexivity | now rewrite Hsame]).
  intros operation Hop. rewrite (Heither operation Hop). clear operation Hop Heither.
  rewrite commit_nonempty.
  edestruct (perform_all_succeed [] op_all callback w) as (calls & _ & ->).
  - simpl. unfold supported. now rewrite Hall.
  - exact Hq.
  - simpl. apply Forall_take with (n := 1) in Hok.
    rewrite take_take in Hok. exact Hok.
  - simpl. unfold apply_operation at 1 2. rewrite Hall.
    split; [reflexivity|].
    rewrite keys_turn by reflexivity. simpl.
    rewrite (script_second_succeeds _ Hok). simpl.
    unfold store_keys. rewrite map_to_list_empty. reflexivity.
Qed.

Lemma delete_all_is_delete_by_empty_prefix_witness :
  CommitContentMutation [DeleteAll] 7
    (idle kOK {["a" := mkProto "a" "1"]} [])
  = CommitContentMutation [DeleteByPrefix EmptyString] 7
      (idle kOK {["a" := mkProto "a" "1"]} []) /\
  dispatches
    (trace (CommitContentMutation [DeleteAll] 7
              (idle kOK {["a" := mkProto "a" "1"]} [])))
  = [UpdateEntriesWithRemoveFilter [] (BindDatabasePrefixFilter EmptyString)] /\
  (forall k, RunFilter (BindDatabasePrefixFilter EmptyString) k = true) /\
  forall operation,
    operation = DeleteAll \/ operation = DeleteByPrefix EmptyString ->
    storage_database_
      (quiesce (CommitContentMutation [operation] 7
                  (idle kOK {["a" := mkProto "a" "1"]} []))) = ∅ /\
    trace (quiesce (LoadAllContentKeys 8
                      (quiesce (CommitContentMutation [operation] 7
                                  (idle kOK {["a" := mkProto "a" "1"]} [])))))
    = trace (quiesce (CommitContentMutation [operation] 7
                        (idle kOK {["a" := mkProto "a" "1"]} [])))
      ++ [Dispatched LoadKeys; Completed (KeysReply true (Some []));
          KeysLoaded 8 true []].
Proof.
  exact (delete_all_is_delete_by_empty_prefix
           DeleteAll (DeleteByPrefix EmptyString) 7 8
           (idle kOK {["a" := mkProto "a" "1"]} [])
           eq_refl eq_refl eq_refl eq_refl (Forall_nil_2 _)).
Defined.

(** C10.  For every two key lists with the same distinct keys (a
    permutation of a list, or a list with some keys repeated, are such
    pairs), LoadContent makes the same store call with the same bound key
    set, so the whole run, and with it the records handed to the callback,
    is the same; the bound filter accepts a key exactly when it occurs in
    the list. *)
Theorem load_content_depends_on_key_set keys1 keys2 callback w :
  (forall k, In k keys1 <-> In k keys2) ->
  LoadContent keys1 callback w = LoadContent keys2 callback w /\
  loaded_records (trace (quiesce (LoadContent keys1 callback w)))
  = loaded_records (trace (quiesce (LoadContent keys2 callback w))) /\
  (forall k, DatabaseKeyFilter (list_to_set keys1) k = true <-> In k keys1).
Proof.
  intros Hsame.
  assert (list_to_set keys1 =@{gset string} list_to_set keys2) as Hset.
  { apply set_eq. intros k. rewrite !elem_of_list_to_set, !list_elem_of_In.
    apply Hsame. }
  assert (LoadContent keys1 callback w = LoadContent keys2 callback w) as Hload
    by (unfold LoadContent; now rewrite Hset).
  split; [exact Hload|]. split; [now rewrite Hload|].
  intros k. unfold DatabaseKeyFilter.
  rewrite bool_decide_eq_true, elem_of_list_to_set, list_elem_of_In. reflexivity.
Qed.

Lemma load_content_depends_on_key_set_witness :
  LoadContent ["b"; "a"; "b"] 5
    (idle kOK {["a" := mkProto "a" "1"]} [])
  = LoadContent ["a"; "b"] 5 (idle kOK {["a" := mkProto "a" "1"]} []) /\
  loaded_records
    (trace (quiesce (LoadContent ["b"; "a"; "b"] 5
                       (idle kOK {["a" := mkProto "a" "1"]} []))))
  = loaded_records
      (trace (quiesce (LoadContent ["a"; "b"] 5
                         (idle kOK {["a" := mkProto "a" "1"]} [])))) /\
  (forall k, DatabaseKeyFilter (list_to_set ["b"; "a"; "b"]) k = true
             <-> In k ["b"; "a"; "b"]).
Proof.
  apply (load_content_depends_on_key_set ["b"; "a"; "b"] ["a"; "b"] 5
           (idle kOK {["a" := mkProto "a" "1"]} [])).
  intros k. simpl. tauto.
Defined.

(** ** Failed loads *)

(** C7.  For every read request (LoadContent or LoadContentByPrefix) made
    while nothing else is waiting whose store load reports failure, the
    callback receives the flag false together with an empty result
    collection: no record reaches the caller.  The handler forwards the
    flag of the store as it is and makes one record of every entry the
    store delivered, so the empty collection is the one the failed load
    comes with; the read is not tried again and the records of the store
    and the status are as they were. *)
Theorem failed_load_delivers_no_records callback w :
  task_queue w = [] ->
  hd Succeeds (outcomes w) = Fails ->
  (forall keys,
     quiesce (LoadContent keys callback w)
     = {| database_status_ := database_status_ w;
          storage_database_ := storage_database_ w;
          outcomes := tl (outcomes w);
          task_queue := [];
          trace :=
            trace w
            ++ [Dispatched (LoadEntriesWithFilter
                              (BindDatabaseKeyFilter (list_to_set keys))
                              CreateReadOptions EmptyString);
                Completed (LoadReply false (Some []));
                ContentLoaded callback false []] |}) /\
  (forall prefix,
     quiesce (LoadContentByPrefix prefix callback w)
     = {| database_status_ := database_status_ w;
          storage_database_ := storage_database_ w;
          outcomes := tl (outcomes w);
          task_queue := [];
          trace :=
            trace w
            ++ [Dispatched (LoadEntriesWithFilter
                              (BindDatabasePrefixFilter prefix)
                              CreateReadOptions EmptyString);
                Completed (LoadReply false (Some []));
                ContentLoaded callback false []] |}).
Proof.
  intros Hq Hfail. split.
  - intros keys. unfold LoadContent. rewrite load_turn by assumption.
    rewrite Hfail. reflexivity.
  - intros prefix. unfold LoadContentByPrefix. rewrite load_turn by assumption.
    rewrite Hfail. reflexivity.
Qed.

Lemma failed_load_delivers_no_records_witness :
  (forall keys,
     quiesce (LoadContent keys 5 (idle kOK {["a" := mkProto "a" "1"]} [Fails]))
     = {| database_status_ := kOK;
          storage_database_ := {["a" := mkProto "a" "1"]};
          outcomes := [];
          task_queue := [];
          trace :=
            [Dispatched (LoadEntriesWithFilter
                           (BindDatabaseKeyFilter (list_to_set keys))
                           CreateReadOptions EmptyString);
             Completed (LoadReply false (Some []));
             ContentLoaded 5 false []] |}) /\
  (forall prefix,
     quiesce (LoadContentByPrefix prefix 5
                (idle kOK {["a" := mkProto "a" "1"]} [Fails]))
     = {| database_status_ := kOK;
          storage_database_ := {["a" := mkProto "a" "1"]};
          outcomes := [];
          task_queue := [];
          trace :=
            [Dispatched (LoadEntriesWithFilter
                           (BindDatabasePrefixFilter prefix)
                           CreateReadOptions EmptyString);
             Completed (LoadReply false (Some []));
             ContentLoaded 5 false []] |}).
Proof.
  exact (failed_load_delivers_no_records 5
           (idle kOK {["a" := mkProto "a" "1"]} [Fails]) eq_refl eq_refl).
Defined.

(** ** Requests before the store is ready *)

(** C9, as the claim states it, fails: right after construction, with the
    status still kNotInitialized and the completion of Init still waiting,
    a mutation and a read are both handed to the store at once, before
    the completion of Init has been observed; neither is held back and
    neither is answered with a failure. *)
Lemma request_before_ready_is_forwarded :
  IsInitialized (FeedContentDatabase_new ∅ []) = false /\
  CommitContentMutation [Upsert "a" "1"] 7 (FeedContentDatabase_new ∅ [])
  = {| database_status_ := kNotInitialized;
       storage_database_ := {["a" := mkProto "a" "1"]};
       outcomes := [];
       task_queue :=
         [StoreDone BindOnDatabaseInitialized (InitReply kOK);
          StoreDone (BindOnOperationCommitted [] 7) (UpdateReply true)];
       trace :=
         [Dispatched Init;
          Dispatched (UpdateEntries [("a", mkProto "a" "1")] [])] |} /\
  dispatches (trace (LoadContentByPrefix "a" 5 (FeedContentDatabase_new ∅ [])))
  = [Init;
     LoadEntriesWithFilter (BindDatabasePrefixFilter "a") CreateReadOptions
       EmptyString] /\
  trace (quiesce (CommitContentMutation [Upsert "a" "1"] 7
                    (FeedContentDatabase_new ∅ [])))
  = [Dispatched Init;
     Dispatched (UpdateEntries [("a", mkProto "a" "1")] []);
     Completed (InitReply kOK);
     Completed (UpdateReply true);
     Confirmed 7 true].
Proof. repeat split; reflexivity. Qed.

(** C9, amended.  The class does not consult the initialisation status
    when a request arrives: whatever the status is, CommitContentMutation,
    LoadContent, LoadContentByPrefix and LoadAllContentKeys do exactly what
    they do when the status is kOK.  Every read is handed to the store at
    once with one store call, and so is the first operation of a mutation
    that starts with a recognised operation; no request is held back or
    turned away because of the status, for reads and writes alike. *)
Theorem requests_do_not_consult_status
    status w content_mutation callback keys prefix :
  CommitContentMutation content_mutation callback (set_status status w)
  = set_status status (CommitContentMutation content_mutation callback w) /\
  LoadContent keys callback (set_status status w)
  = set_status status (LoadContent keys callback w) /\
  LoadContentByPrefix prefix callback (set_status status w)
  = set_status status (LoadContentByPrefix prefix callback w) /\
  LoadAllContentKeys callback (set_status status w)
  = set_status status (LoadAllContentKeys callback w) /\
  dispatches (trace (LoadContent keys callback w))
  = dispatches (trace w)
    ++ [LoadEntriesWithFilter (BindDatabaseKeyFilter (list_to_set keys))
          CreateReadOptions EmptyString] /\
  dispatches (trace (LoadContentByPrefix prefix callback w))
  = dispatches (trace w)
    ++ [LoadEntriesWithFilter (BindDatabasePrefixFilter prefix)
          CreateReadOptions EmptyString] /\
  dispatches (trace (LoadAllContentKeys callback w))
  = dispatches (trace w) ++ [LoadKeys] /\
  (forall operation rest,
     content_mutation = operation :: rest ->
     supported operation = true ->
     exists call,
       realises call operation /\
       dispatches (trace (CommitContentMutation content_mutation callback w))
       = dispatches (trace w) ++ [call]).
Proof.
  split.
  { destruct content_mutation as [|operation rest]; [reflexivity|].
    rewrite !commit_nonempty. unfold PerformNextOperation. simpl.
    destruct (type_ operation); reflexivity. }
  do 3 (split; [reflexivity|]).
  do 3 (split; [simpl; rewrite dispatches_app; reflexivity|]).
  intros operation rest -> Hop.
  destruct (perform_supported operation Hop) as (call & Hreal & _ & Hcall).
  exists call. split; [assumption|].
  rewrite commit_nonempty, Hcall. simpl. rewrite dispatches_app. reflexivity.
Qed.

(** ** Scenarios *)

Example prefix_filter_is_case_sensitive :
  DatabasePrefixFilter "ab" "abc" = true /\
  DatabasePrefixFilter "ab" "ab" = true /\
  DatabasePrefixFilter "abc" "ab" = false /\
  DatabasePrefixFilter "ab" "Abc" = false /\
  DatabasePrefixFilter EmptyString EmptyString = true.
Proof. repeat split; reflexivity. Qed.

Example scenario_upsert_then_delete_by_prefix :
  let w1 := quiesce (CommitContentMutation [Upsert "a" "1"; Upsert "b" "2"] 1
                       (idle kOK ∅ [])) in
  let w2 := quiesce (CommitContentMutation [DeleteByPrefix "a"] 2 w1) in
  store_keys (storage_database_ w1) = ["a"; "b"] /\
  store_keys (storage_database_ w2) = ["b"] /\
  confirmations (trace w2) = [(1, true); (2, true)].
Proof. repeat split; vm_compute; reflexivity. Qed.

Example scenario_failing_operation :
  let w1 := quiesce (CommitContentMutation
                       [Upsert "x" "1"; Delete "q"; Upsert "y" "2"] 1
                       (idle kOK ∅ [Succeeds; Fails])) in
  store_keys (storage_database_ w1) = ["x"] /\
  confirmations (trace w1) = [(1, false)] /\
  length (dispatches (trace w1)) = 2.
Proof. repeat split; vm_compute; reflexivity. Qed.

Example scenario_delete_absent_key_twice :
  let w1 := quiesce (CommitContentMutation [Delete "k"] 1
                       (idle kOK {["k" := mkProto "k" "v"]} [])) in
  let w2 := quiesce (CommitContentMutation [Delete "k"] 2 w1) in
  storage_database_ w1 !! "k" = None /\
  storage_database_ w2 !! "k" = None /\
  confirmations (trace w2) = [(1, true); (2, true)].
Proof. repeat split; vm_compute; reflexivity. Qed.

Example scenario_load_content_by_keys :
  loaded_records
    (trace (quiesce (LoadContent ["b"; "zz"; "b"] 3
                       (idle kOK
                          (<["a" := mkProto "a" "1"]>
                             {["b" := mkProto "b" "2"]}) []))))
  = [("b", "2")].
Proof. vm_compute. reflexivity. Qed.

(** ** The commit path as a loop *)

Section SequentialLoop.

Implicit Types (w : World) (db : gmap string ContentStorageProto).

Lemma drop_one_tl {A} (l : list A) : drop 1 l = tl l.
Proof. destruct l; reflexivity. Qed.

Lemma drop_succ_tl {A} n (l : list A) : drop (S n) l = drop n (tl l).
Proof. destruct l; simpl; [now rewrite drop_nil | reflexivity]. Qed.

(** Whatever the operations and the answers of the store, a started
    mutation ends as the loop says: the store has carried out the
    operations the loop counts, front to back; the store calls made are
    one per operation reached, each carrying out its operation; and the
    confirmation runs once, last, with the flag of the loop. *)
Lemma perform_runs_loop rest : forall operation callback w,
  task_queue w = [] ->
  let batch := operation :: rest in
  exists tr,
    quiesce (PerformNextOperation batch callback w)
    = {| database_status_ := database_status_ w;
         storage_database_ :=
           foldl (fun db op => apply_operation op db) (storage_database_ w)
                 (take (applied_count batch (outcomes w)) batch);
         outcomes := drop (dispatched_count batch (outcomes w)) (outcomes w);
         task_queue := [];
         trace := trace w ++ tr
                  ++ [Confirmed callback (commit_success batch (outcomes w))] |} /\
    confirmations tr = [] /\
    loaded_records tr = [] /\
    Forall2 realises (dispatches tr)
            (take (dispatched_count batch (outcomes w)) batch).
Proof.
  induction rest as [|next rest IH]; intros operation callback w Hq batch;
    subst batch; simpl applied_count; simpl dispatched_count;
    simpl commit_success.
  all: destruct (supported operation) eqn:Hop;
    [ destruct (perform_supported operation Hop) as (call & Hreal & Hreply & ->);
      rewrite dispatch_turn by assumption; cbv zeta
    | rewrite perform_unsupported, posted_turn by assumption;
      exists []; unfold record; simpl; rewrite Hq; repeat split; constructor ].
  - destruct (hd Succeeds (outcomes w)) eqn:Hhd; simpl succeeded; cbv iota;
      unfold OnOperationCommitted; simpl negb; simpl Empty; cbv iota;
      rewrite quiesce_idle by reflexivity.
    + exists [Dispatched call; Completed (UpdateReply true)].
      unfold Run, record. simpl. rewrite Hreal, drop_one_tl, <- app_assoc.
      repeat split. repeat constructor. exact Hreal.
    + exists [Dispatched call; Completed (UpdateReply false)].
      unfold Run, record. simpl. rewrite drop_one_tl, <- app_assoc.
      repeat split. repeat constructor. exact Hreal.
  - destruct (hd Succeeds (outcomes w)) eqn:Hhd; simpl succeeded; cbv iota.
    + rewrite OnOperationCommitted_next.
      edestruct (IH next callback) as (tr & -> & Hconf & Hload & Hcalls);
        [reflexivity|]. cbv zeta in Hcalls.
      exists ([Dispatched call; Completed (UpdateReply true)] ++ tr).
      cbn [database_status_ storage_database_ outcomes task_queue trace].
      rewrite drop_succ_tl, Hreal.
      split; [|split; [|split]].
      * cbn [take foldl]. rewrite <- !app_assoc. reflexivity.
      * exact Hconf.
      * exact Hload.
      * cbn [take]. simpl dispatches. constructor; assumption.
    + unfold OnOperationCommitted. simpl negb. cbv iota.
      rewrite quiesce_idle by reflexivity.
      exists [Dispatched call; Completed (UpdateReply false)].
      unfold Run, record. simpl. rewrite drop_one_tl, <- app_assoc.
      repeat split. repeat constructor. exact Hreal.
Qed.

Lemma commit_runs_loop batch callback w :
  task_queue w = [] ->
  exists tr,
    quiesce (CommitContentMutation batch callback w)
    = {| database_status_ := database_status_ w;
         storage_database_ :=
           foldl (fun db op => apply_operation op db) (storage_database_ w)
                 (take (applied_count batch (outcomes w)) batch);
         outcomes := drop (dispatched_count batch (outcomes w)) (outcomes w);
         task_queue := [];
         trace := trace w ++ tr
                  ++ [Confirmed callback (commit_success batch (outcomes w))] |} /\
    confirmations tr = [] /\
    loaded_records tr = [] /\
    Forall2 realises (dispatches tr)
            (take (dispatched_count batch (outcomes w)) batch).
Proof.
  intros Hq. destruct batch as [|operation rest].
  - exists []. assert (CommitContentMutation [] callback w = PostTask callback true w)
      as -> by reflexivity.
    rewrite posted_turn by assumption. unfold record. simpl.
    rewrite Hq. repeat split. constructor.
  - rewrite commit_nonempty. now apply perform_runs_loop.
Qed.

End SequentialLoop.

Lemma all_succeed_counts batch : forall os,
  forallb supported batch = true ->
  Forall (eq Succeeds) (take (length batch) os) ->
  applied_count batch os = length batch /\
  dispatched_count batch os = length batch /\
  commit_success batch os = true.
Proof.
  induction batch as [|operation rest IH]; intros os Hsup Hok; [now simpl|].
  simpl in Hsup. apply andb_prop in Hsup as [Hop Hrest].
  simpl length in Hok.
  destruct (script_head_succeeds _ _ Hok) as (Hhd & Htl & _).
  destruct (IH (tl os) Hrest Htl) as (Ha & Hd & Hs).
  simpl. rewrite Hop, Hhd, Ha, Hd, Hs. auto.
Qed.

Lemma success_counts batch : forall os,
  commit_success batch os = true ->
  applied_count batch os = length batch /\
  dispatched_count batch os = length batch /\
  forallb supported batch = true.
Proof.
  induction batch as [|operation rest IH]; intros os Hs; [now simpl|].
  simpl in *. apply andb_prop in Hs as [Hop Hs]. rewrite Hop.
  destruct (hd Succeeds os); [|discriminate].
  destruct (IH (tl os) Hs) as (-> & -> & ->). auto.
Qed.

(** ** Initialisation *)


(** ** The commit path, for any batch and any store *)

(** X2.  For every mutation committed while nothing else is waiting, with
    the store failing wherever it will, the callback chain does what a
    loop over the batch does: it stops at the first operation that is not
    recognised or that the store fails; the records are those the
    operations before that point leave, applied front to back; one store
    call is made for every operation reached, each carrying out its own
    operation; the status is unchanged; and the confirmation runs once, as
    the last event, with true exactly when the loop reached the end. *)
Theorem commit_agrees_with_sequential_loop batch callback w :
  task_queue w = [] ->
  exists tr,
    quiesce (CommitContentMutation batch callback w)
    = {| database_status_ := database_status_ w;
         storage_database_ :=
           foldl (fun db op => apply_operation op db) (storage_database_ w)
                 (take (applied_count batch (outcomes w)) batch);
         outcomes := drop (dispatched_count batch (outcomes w)) (outcomes w);
         task_queue := [];
         trace := trace w ++ tr
                  ++ [Confirmed callback (commit_success batch (outcomes w))] |} /\
    confirmations tr = [] /\
    Forall2 realises (dispatches tr)
            (take (dispatched_count batch (outcomes w)) batch).
Proof.
  intros Hq.
  destruct (commit_runs_loop batch callback w Hq) as (tr & Heq & Hconf & _ & Hcalls).
  exists tr. auto.
Qed.

Lemma commit_agrees_with_sequential_loop_witness :
  exists tr,
    quiesce (CommitContentMutation
               [Upsert "x" "1"; Delete "q"; Upsert "y" "2"] 7
               (idle kOK ∅ [Succeeds; Fails; Succeeds]))
    = {| database_status_ := kOK;
         storage_database_ :=
           foldl (fun db op => apply_operation op db) ∅ [Upsert "x" "1"];
         outcomes := [Succeeds];
         task_queue := [];
         trace := tr ++ [Confirmed 7 false] |} /\
    confirmations tr = [] /\
    Forall2 realises (dispatches tr) [Upsert "x" "1"; Delete "q"].
Proof.
  exact (commit_agrees_with_sequential_loop
           [Upsert "x" "1"; Delete "q"; Upsert "y" "2"] 7
           (idle kOK ∅ [Succeeds; Fails; Succeeds]) eq_refl).
Defined.

(** X3.  A confirmation with true is never a false promise: if the
    confirmation of a mutation committed while nothing else is waiting
    runs with true, then every operation of the batch is one of the four
    recognised variants, the store was called once for each, and the
    records are those the whole batch leaves. *)
Theorem confirmed_true_means_all_applied batch callback w :
  task_queue w = [] ->
  confirmations (trace (quiesce (CommitContentMutation batch callback w)))
  = confirmations (trace w) ++ [(callback, true)] ->
  forallb supported batch = true /\
  storage_database_ (quiesce (CommitContentMutation batch callback w))
  = foldl (fun db op => apply_operation op db) (storage_database_ w) batch /\
  length (dispatches (trace (quiesce (CommitContentMutation batch callback w))))
  = length (dispatches (trace w)) + length batch.
Proof.
  intros Hq.
  destruct (commit_runs_loop batch callback w Hq) as (tr & -> & Hconf & _ & Hcalls).
  cbn [trace storage_database_].
  rewrite !confirmations_app, Hconf. simpl. intros Hflag.
  apply app_inv_head in Hflag. injection Hflag as Hflag.
  destruct (success_counts batch (outcomes w) Hflag) as (Ha & Hd & Hsup).
  rewrite Ha, Hd in *. rewrite take_ge in * by lia.
  split; [assumption|]. split; [reflexivity|].
  rewrite !dispatches_app, !length_app. simpl.
  apply Forall2_length in Hcalls. lia.
Qed.

Lemma confirmed_true_means_all_applied_witness :
  forallb supported [Upsert "a" "1"; DeleteByPrefix "a"] = true /\
  storage_database_
    (quiesce (CommitContentMutation [Upsert "a" "1"; DeleteByPrefix "a"] 7
                (idle kOK ∅ [])))
  = foldl (fun db op => apply_operation op db) ∅
          [Upsert "a" "1"; DeleteByPrefix "a"] /\
  length
    (dispatches
       (trace (quiesce (CommitContentMutation
                          [Upsert "a" "1"; DeleteByPrefix "a"] 7
                          (idle kOK ∅ [])))))
  = 0 + 2.
Proof.
  exact (confirmed_true_means_all_applied
           [Upsert "a" "1"; DeleteByPrefix "a"] 7 (idle kOK ∅ [])
           eq_refl eq_refl).
Defined.

(** ** What the operations do to the records *)

Section Records.

Implicit Types (w : World) (db : gmap string ContentStorageProto).

Lemma apply_operation_keyed operation db :
  keyed db -> keyed (apply_operation operation db).
Proof.
  unfold keyed, apply_operation. intros Hdb.
  destruct (type_ operation).
  - now apply map_Forall_delete.
  - intros k proto Hk. apply map_lookup_filter_Some in Hk as [Hk _].
    exact (Hdb k proto Hk).
  - now apply map_Forall_insert_2.
  - apply map_Forall_empty.
  - assumption.
Qed.

Lemma foldl_apply_keyed ops : forall db,
  keyed db -> keyed (foldl (fun db op => apply_operation op db) db ops).
Proof.
  induction ops as [|operation ops IH]; intros db Hdb; simpl; [assumption|].
  apply IH. now apply apply_operation_keyed.
Qed.

Lemma apply_operation_untouched operation k db :
  touches operation k = false ->
  apply_operation operation db !! k = db !! k.
Proof.
  unfold touches, apply_operation. destruct (type_ operation); intros Ht.
  - apply String.eqb_neq in Ht. now apply lookup_delete_ne.
  - destruct (db !! k) as [proto|] eqn:Hk.
    + apply map_lookup_filter_Some. split; [assumption|]. exact Ht.
    + apply map_lookup_filter_None. now left.
  - apply String.eqb_neq in Ht. now apply lookup_insert_ne.
  - discriminate.
  - reflexivity.
Qed.

Lemma foldl_apply_untouched k ops : forall db,
  Forall (fun op => touches op k = false) ops ->
  foldl (fun db op => apply_operation op db) db ops !! k = db !! k.
Proof.
  induction ops as [|operation ops IH]; intros db Hops; simpl; [reflexivity|].
  apply Forall_cons in Hops as [Hop Hops].
  rewrite IH by assumption. now apply apply_operation_untouched.
Qed.

Lemma apply_operation_idempotent operation db :
  apply_operation operation (apply_operation operation db)
  = apply_operation operation db.
Proof.
  unfold apply_operation. destruct (type_ operation).
  - apply delete_delete_eq.
  - apply map_eq. intros k.
    destruct (filter (fun kv : string * ContentStorageProto =>
                        StartsWith kv.1 (prefix_ operation) = false) db !! k)
      as [proto|] eqn:Hk.
    + apply map_lookup_filter_Some. split; [assumption|].
      apply map_lookup_filter_Some in Hk as [_ Hk]. exact Hk.
    + apply map_lookup_filter_None. now left.
  - apply insert_insert_eq.
  - reflexivity.
  - reflexivity.
Qed.

End Records.

(** X4.  Every record the class writes goes under its own key: if every
    record of the store is stored under the key it carries, this is still
    so after any mutation has been committed, whatever the operations are
    and wherever the store fails. *)
Theorem commit_keeps_records_keyed batch callback w :
  task_queue w = [] ->
  keyed (storage_database_ w) ->
  keyed (storage_database_ (quiesce (CommitContentMutation batch callback w))).
Proof.
  intros Hq Hkeyed.
  destruct (commit_runs_loop batch callback w Hq) as (tr & -> & _).
  cbn [storage_database_]. now apply foldl_apply_keyed.
Qed.

Lemma commit_keeps_records_keyed_witness :
  keyed
    (storage_database_
       (quiesce (CommitContentMutation
                   [Upsert "b" "2"; DeleteByPrefix "a"; Upsert "c" "3"] 7
                   (idle kOK {["a" := mkProto "a" "1"]} [Succeeds; Succeeds; Fails])))).
Proof.
  apply (commit_keeps_records_keyed
           [Upsert "b" "2"; DeleteByPrefix "a"; Upsert "c" "3"] 7
           (idle kOK {["a" := mkProto "a" "1"]} [Succeeds; Succeeds; Fails])).
  - reflexivity.
  - apply map_Forall_singleton. reflexivity.
Defined.

(** X5.  No request changes the initialisation status: after a mutation
    or any of the three reads has been made while nothing else is waiting
    and the owner sequence has drained, the status is what it was, whether
    the store carried the calls out or failed them. *)
Theorem requests_keep_status batch keys prefix callback w :
  task_queue w = [] ->
  database_status_ (quiesce (CommitContentMutation batch callback w))
  = database_status_ w /\
  database_status_ (quiesce (LoadContent keys callback w))
  = database_status_ w /\
  database_status_ (quiesce (LoadContentByPrefix prefix callback w))
  = database_status_ w /\
  database_status_ (quiesce (LoadAllContentKeys callback w))
  = database_status_ w.
Proof.
  intros Hq. split; [|split; [|split]].
  - destruct (commit_runs_loop batch callback w Hq) as (tr & -> & _). reflexivity.
  - unfold LoadContent. now rewrite load_turn.
  - unfold LoadContentByPrefix. now rewrite load_turn.
  - now rewrite keys_turn.
Qed.

Lemma requests_keep_status_witness :
  database_status_
    (quiesce (CommitContentMutation [Upsert "a" "1"] 7 (idle kError ∅ [Fails])))
  = kError /\
  database_status_ (quiesce (LoadContent ["a"] 7 (idle kError ∅ [Fails])))
  = kError /\
  database_status_ (quiesce (LoadContentByPrefix "a" 7 (idle kError ∅ [Fails])))
  = kError /\
  database_status_ (quiesce (LoadAllContentKeys 7 (idle kError ∅ [Fails])))
  = kError.
Proof.
  exact (requests_keep_status [Upsert "a" "1"] ["a"] "a" 7
           (idle kError ∅ [Fails]) eq_refl).
Defined.

(** X6.  A mutation changes only the records its operations name: if no
    operation of the batch is an upsert or a delete of the key k, a delete
    by a prefix of k, or a delete of everything, then the record stored
    under k (or its absence) is the same after the commit as before,
    wherever the store fails. *)
Theorem commit_leaves_other_keys_alone batch callback w k :
  task_queue w = [] ->
  forallb (fun op => negb (touches op k)) batch = true ->
  storage_database_ (quiesce (CommitContentMutation batch callback w)) !! k
  = storage_database_ w !! k.
Proof.
  intros Hq Hbatch.
  destruct (commit_runs_loop batch callback w Hq) as (tr & -> & _).
  cbn [storage_database_]. apply foldl_apply_untouched.
  apply Forall_take. apply Forall_forall. intros op Hop.
  rewrite forallb_forall in Hbatch.
  apply list_elem_of_In in Hop. specialize (Hbatch op Hop).
  now apply negb_true_iff in Hbatch.
Qed.

Lemma commit_leaves_other_keys_alone_witness :
  storage_database_
    (quiesce (CommitContentMutation
                [Upsert "b" "2"; Delete "c"; DeleteByPrefix "ab"] 7
                (idle kOK {["a" := mkProto "a" "1"]} []))) !! "a"
  = storage_database_ (idle kOK {["a" := mkProto "a" "1"]} []) !! "a".
Proof.
  exact (commit_leaves_other_keys_alone
           [Upsert "b" "2"; Delete "c"; DeleteByPrefix "ab"] 7
           (idle kOK {["a" := mkProto "a" "1"]} []) "a" eq_refl eq_refl).
Defined.

(** X7.  Every operation is idempotent: committing a recognised operation
    twice in a row, with the store carrying both calls out, leaves the
    same records as committing it once, and both commits of the pair are
    confirmed with true; deleting a key that is no longer there is not an
    error. *)
Theorem operation_twice_is_once operation callback w :
  supported operation = true ->
  task_queue w = [] ->
  Forall (eq Succeeds) (take 2 (outcomes w)) ->
  storage_database_
    (quiesce (CommitContentMutation [operation; operation] callback w))
  = storage_database_ (quiesce (CommitContentMutation [operation] callback w)) /\
  confirmations
    (trace (quiesce (CommitContentMutation [operation] (S callback)
                       (quiesce (CommitContentMutation [operation] callback w)))))
  = confirmations (trace w) ++ [(callback, true); (S callback, true)] /\
  storage_database_
    (quiesce (CommitContentMutation [operation] (S callback)
                (quiesce (CommitContentMutation [operation] callback w))))
  = storage_database_ (quiesce (CommitContentMutation [operation] callback w)).
Proof.
  intros Hop Hq Hok.
  assert (forallb supported [operation] = true) as Hone by (simpl; now rewrite Hop).
  assert (forallb supported [operation; operation] = true) as Htwo
    by (simpl; now rewrite Hop).
  assert (Forall (eq Succeeds) (take 1 (outcomes w))) as Hok1.
  { apply Forall_take with (n := 1) in Hok. now rewrite take_take in Hok. }
  destruct (commit_runs_loop [operation; operation] callback w Hq)
    as (tr2 & -> & _).
  destruct (all_succeed_counts [operation; operation] (outcomes w) Htwo Hok)
    as (-> & _ & _).
  destruct (commit_runs_loop [operation] callback w Hq)
    as (tr1 & -> & Hconf1 & _).
  destruct (all_succeed_counts [operation] (outcomes w) Hone Hok1)
    as (-> & -> & ->).
  cbn [storage_database_ length take foldl].
  split; [apply apply_operation_idempotent|].
  edestruct (commit_runs_loop [operation] (S callback)) as (tr & -> & Hconf & _);
    [reflexivity|].
  cbn [storage_database_ outcomes trace].
  assert (Forall (eq Succeeds) (take 1 (drop 1 (outcomes w)))) as Hok2.
  { rewrite take_drop_commute. now apply Forall_drop. }
  destruct (all_succeed_counts [operation] (drop 1 (outcomes w)) Hone Hok2)
    as (-> & _ & ->).
  cbn [length take foldl]. split; [|apply apply_operation_idempotent].
  rewrite !confirmations_app, Hconf1, Hconf. simpl.
  rewrite <- app_assoc. reflexivity.
Qed.

Lemma operation_twice_is_once_witness :
  storage_database_
    (quiesce (CommitContentMutation [Delete "k"; Delete "k"] 1
                (idle kOK {["k" := mkProto "k" "v"]} [])))
  = storage_database_
      (quiesce (CommitContentMutation [Delete "k"] 1
                  (idle kOK {["k" := mkProto "k" "v"]} []))) /\
  confirmations
    (trace (quiesce (CommitContentMutation [Delete "k"] 2
                       (quiesce (CommitContentMutation [Delete "k"] 1
                                   (idle kOK {["k" := mkProto "k" "v"]} []))))))
  = [] ++ [(1, true); (2, true)] /\
  storage_database_
    (quiesce (CommitContentMutation [Delete "k"] 2
                (quiesce (CommitContentMutation [Delete "k"] 1
                            (idle kOK {["k" := mkProto "k" "v"]} [])))))
  = storage_database_
      (quiesce (CommitContentMutation [Delete "k"] 1
                  (idle kOK {["k" := mkProto "k" "v"]} []))).
Proof.
  exact (operation_twice_is_once (Delete "k") 1
           (idle kOK {["k" := mkProto "k" "v"]} [])
           eq_refl eq_refl (Forall_nil_2 _)).
Defined.

Lemma stop_at_unsupported pre : forall operation post os,
  forallb supported pre = true ->
  supported operation = false ->
  Forall (eq Succeeds) (take (length pre) os) ->
  applied_count (pre ++ operation :: post) os = length pre /\
  dispatched_count (pre ++ operation :: post) os = length pre /\
  commit_success (pre ++ operation :: post) os = false.
Proof.
  induction pre as [|first pre IH]; intros operation post os Hpre Hop Hok.
  - simpl. rewrite Hop. auto.
  - simpl in Hpre. apply andb_prop in Hpre as [Hfirst Hpre].
    simpl length in Hok.
    destruct (script_head_succeeds _ _ Hok) as (Hhd & Htl & _).
    destruct (IH operation post (tl os) Hpre Hop Htl) as (Ha & Hd & Hs).
    simpl. rewrite Hfirst, Hhd, Ha, Hd, Hs. auto.
Qed.

(** X8.  An operation that is not recognised halts the batch wherever it
    stands: with the store carrying out the operations before it, those
    operations are applied with one store call each, no store call is made
    for the unrecognised operation or for anything behind it, the records
    are those the operations before it leave, and the confirmation runs
    with false. *)
Theorem unsupported_operation_halts_the_batch
    pre operation post callback w :
  forallb supported pre = true ->
  supported operation = false ->
  task_queue w = [] ->
  Forall (eq Succeeds) (take (length pre) (outcomes w)) ->
  storage_database_
    (quiesce (CommitContentMutation (pre ++ operation :: post) callback w))
  = foldl (fun db op => apply_operation op db) (storage_database_ w) pre /\
  confirmations
    (trace (quiesce (CommitContentMutation (pre ++ operation :: post) callback w)))
  = confirmations (trace w) ++ [(callback, false)] /\
  exists calls,
    Forall2 realises calls pre /\
    dispatches
      (trace (quiesce (CommitContentMutation (pre ++ operation :: post) callback w)))
    = dispatches (trace w) ++ calls.
Proof.
  intros Hpre Hop Hq Hok.
  destruct (commit_runs_loop (pre ++ operation :: post) callback w Hq)
    as (tr & -> & Hconf & _ & Hcalls).
  destruct (stop_at_unsupported pre operation post (outcomes w) Hpre Hop Hok)
    as (Ha & Hd & Hs).
  rewrite Ha, Hd, Hs in *. rewrite take_app_length in *.
  cbn [storage_database_ trace]. split; [reflexivity|]. split.
  - rewrite !confirmations_app, Hconf. reflexivity.
  - exists (dispatches tr). split; [assumption|].
    rewrite !dispatches_app. simpl. now rewrite app_nil_r.
Qed.

Lemma unsupported_operation_halts_the_batch_witness :
  storage_database_
    (quiesce (CommitContentMutation
                ([Upsert "a" "1"]
                   ++ {| type_ := CONTENT_OTHER 9; key_ := "k"; value_ := "v";
                         prefix_ := "p" |} :: [Upsert "b" "2"]) 7
                (idle kOK ∅ [])))
  = foldl (fun db op => apply_operation op db) ∅ [Upsert "a" "1"] /\
  confirmations
    (trace (quiesce (CommitContentMutation
                       ([Upsert "a" "1"]
                          ++ {| type_ := CONTENT_OTHER 9; key_ := "k";
                                value_ := "v"; prefix_ := "p" |}
                          :: [Upsert "b" "2"]) 7
                       (idle kOK ∅ []))))
  = [] ++ [(7, false)] /\
  exists calls,
    Forall2 realises calls [Upsert "a" "1"] /\
    dispatches
      (trace (quiesce (CommitContentMutation
                         ([Upsert "a" "1"]
                            ++ {| type_ := CONTENT_OTHER 9; key_ := "k";
                                  value_ := "v"; prefix_ := "p" |}
                            :: [Upsert "b" "2"]) 7
                         (idle kOK ∅ []))))
    = [] ++ calls.
Proof.
  exact (unsupported_operation_halts_the_batch
           [Upsert "a" "1"]
           {| type_ := CONTENT_OTHER 9; key_ := "k"; value_ := "v"; prefix_ := "p" |}
           [Upsert "b" "2"] 7 (idle kOK ∅ [])
           eq_refl eq_refl eq_refl (Forall_nil_2 _)).
Defined.

(** X9.  Commits made one after the other compose: committing a batch,
    letting the owner sequence drain, and committing a second batch leaves
    the same records, and uses up as much of the store's script, as
    committing the two batches as one, when the operations are recognised
    and the store carries every call out; both confirmations run with
    true, the first before the second. *)
Theorem successive_commits_compose batch1 batch2 callback1 callback2 w :
  forallb supported batch1 = true ->
  forallb supported batch2 = true ->
  task_queue w = [] ->
  Forall (eq Succeeds) (take (length batch1 + length batch2) (outcomes w)) ->
  storage_database_
    (quiesce (CommitContentMutation batch2 callback2
                (quiesce (CommitContentMutation batch1 callback1 w))))
  = storage_database_
      (quiesce (CommitContentMutation (batch1 ++ batch2) callback1 w)) /\
  outcomes
    (quiesce (CommitContentMutation batch2 callback2
                (quiesce (CommitContentMutation batch1 callback1 w))))
  = outcomes (quiesce (CommitContentMutation (batch1 ++ batch2) callback1 w)) /\
  confirmations
    (trace (quiesce (CommitContentMutation batch2 callback2
                       (quiesce (CommitContentMutation batch1 callback1 w)))))
  = confirmations (trace w) ++ [(callback1, true); (callback2, true)].
Proof.
  intros Hsup1 Hsup2 Hq Hok.
  assert (Forall (eq Succeeds) (take (length batch1) (outcomes w))) as Hok1.
  { apply Forall_take with (n := length batch1) in Hok.
    rewrite take_take in Hok.
    now replace (length batch1 `min` (length batch1 + length batch2))
      with (length batch1) in Hok by lia. }
  assert (Forall (eq Succeeds)
            (take (length batch2) (drop (length batch1) (outcomes w)))) as Hok2.
  { rewrite take_drop_commute. now apply Forall_drop. }
  assert (forallb supported (batch1 ++ batch2) = true) as Hsup
    by (rewrite forallb_app, Hsup1, Hsup2; reflexivity).
  assert (Forall (eq Succeeds) (take (length (batch1 ++ batch2)) (outcomes w)))
    as Hok12 by now rewrite length_app.
  destruct (commit_runs_loop (batch1 ++ batch2) callback1 w Hq) as (tr & -> & _).
  destruct (all_succeed_counts _ _ Hsup Hok12) as (-> & -> & _).
  destruct (commit_runs_loop batch1 callback1 w Hq) as (tr1 & -> & Hconf1 & _).
  destruct (all_succeed_counts _ _ Hsup1 Hok1) as (-> & -> & ->).
  edestruct (commit_runs_loop batch2 callback2) as (tr2 & -> & Hconf2 & _);
    [reflexivity|].
  cbn [storage_database_ outcomes trace].
  destruct (all_succeed_counts _ _ Hsup2 Hok2) as (-> & -> & ->).
  rewrite !take_ge by lia. rewrite foldl_app, drop_drop, length_app.
  split; [reflexivity|]. split; [reflexivity|].
  rewrite !confirmations_app, Hconf1, Hconf2. simpl.
  rewrite <- app_assoc. reflexivity.
Qed.

Lemma successive_commits_compose_witness :
  storage_database_
    (quiesce (CommitContentMutation [DeleteByPrefix "a"] 2
                (quiesce (CommitContentMutation [Upsert "a" "1"; Upsert "b" "2"] 1
                            (idle kOK ∅ [])))))
  = storage_database_
      (quiesce (CommitContentMutation
                  ([Upsert "a" "1"; Upsert "b" "2"] ++ [DeleteByPrefix "a"]) 1
                  (idle kOK ∅ []))) /\
  outcomes
    (quiesce (CommitContentMutation [DeleteByPrefix "a"] 2
                (quiesce (CommitContentMutation [Upsert "a" "1"; Upsert "b" "2"] 1
                            (idle kOK ∅ [])))))
  = outcomes
      (quiesce (CommitContentMutation
                  ([Upsert "a" "1"; Upsert "b" "2"] ++ [DeleteByPrefix "a"]) 1
                  (idle kOK ∅ []))) /\
  confirmations
    (trace (quiesce (CommitContentMutation [DeleteByPrefix "a"] 2
                       (quiesce (CommitContentMutation
                                   [Upsert "a" "1"; Upsert "b" "2"] 1
                                   (idle kOK ∅ []))))))
  = [] ++ [(1, true); (2, true)].
Proof.
  exact (successive_commits_compose
           [Upsert "a" "1"; Upsert "b" "2"] [DeleteByPrefix "a"] 1 2
           (idle kOK ∅ []) eq_refl eq_refl eq_refl (Forall_nil_2 _)).
Defined.

(** X10.  The class does not keep overlapping commits apart.  When a
    second mutation is committed while the first call of an earlier one is
    still outstanding, its first operation goes to the store at once; the
    second operation of the earlier mutation follows only when the first
    completion has been observed.  The store therefore sees the first
    operation of the one, the first of the other, then the second of the
    one: the two batches interleave. *)
Theorem overlapping_commits_interleave
    first second rest1 other rest2 callback1 callback2 w :
  supported first = true ->
  supported second = true ->
  supported other = true ->
  task_queue w = [] ->
  hd Succeeds (outcomes w) = Succeeds ->
  exists call_first call_other call_second,
    realises call_first first /\
    realises call_other other /\
    realises call_second second /\
    dispatches
      (trace (step (CommitContentMutation (other :: rest2) callback2
                      (CommitContentMutation (first :: second :: rest1)
                         callback1 w))))
    = dispatches (trace w) ++ [call_first; call_other; call_second].
Proof.
  intros Hfirst Hsecond Hother Hq Hhd.
  destruct (perform_supported first Hfirst) as (c1 & Hr1 & Hreply1 & Hc1).
  destruct (perform_supported second Hsecond) as (c2 & Hr2 & _ & Hc2).
  destruct (perform_supported other Hother) as (c3 & Hr3 & _ & Hc3).
  exists c1, c3, c2. do 3 (split; [assumption|]).
  rewrite !commit_nonempty, Hc1, Hc3.
  unfold step, call_store. cbn [task_queue]. rewrite Hq. cbn [app run_task].
  rewrite Hreply1, Hhd. cbn [succeeded invoke].
  rewrite OnOperationCommitted_next, Hc2.
  unfold call_store, record. cbn [trace].
  rewrite !dispatches_app. simpl. rewrite app_nil_r, <- !app_assoc. reflexivity.
Qed.

Lemma overlapping_commits_interleave_witness :
  exists call_first call_other call_second,
    realises call_first (Upsert "a" "1") /\
    realises call_other DeleteAll /\
    realises call_second (Upsert "b" "2") /\
    dispatches
      (trace (step (CommitContentMutation (DeleteAll :: []) 2
                      (CommitContentMutation (Upsert "a" "1" :: Upsert "b" "2" :: [])
                         1 (idle kOK ∅ [])))))
    = [] ++ [call_first; call_other; call_second].
Proof.
  exact (overlapping_commits_interleave
           (Upsert "a" "1") (Upsert "b" "2") [] DeleteAll [] 1 2 (idle kOK ∅ [])
           eq_refl eq_refl eq_refl eq_refl eq_refl).
Defined.

(** ** What the reads deliver *)

Section Delivered.

Implicit Types (w : World) (db : gmap string ContentStorageProto).

Lemma list_fmap_map {A B} (f : A -> B) (l : list A) : f <$> l = List.map f l.
Proof. induction l as [|x l IH]; simpl; [|rewrite <- IH]; reflexivity. Qed.

Lemma nothing_in_is_nil {A} (l : list A) : (forall x, ~ In x l) -> l = [].
Proof. destruct l as [|x l]; [reflexivity|]. intros H. destruct (H x). now left. Qed.

Lemma last_of_three {A} (l : list A) a b c : last (l ++ [a; b; c]) = Some c.
Proof. change [a; b; c] with ([a; b] ++ [c]). rewrite app_assoc. apply last_snoc. Qed.

(** The records a successful load by keys delivers are those stored under
    one of the keys. *)
Lemma store_load_keys keys db proto :
  In proto (store_load (BindDatabaseKeyFilter (list_to_set keys)) EmptyString db)
  <-> exists k, db !! k = Some proto /\ In k keys.
Proof.
  unfold store_load. rewrite in_map_iff. split.
  - intros [[k v] [<- Hin]]. apply filter_In in Hin as [Hin Hf].
    simpl in *. rewrite StartsWith_empty in Hf. simpl in Hf.
    apply bool_decide_eq_true, elem_of_list_to_set, list_elem_of_In in Hf.
    apply list_elem_of_In, elem_of_map_to_list in Hin. eauto.
  - intros [k [Hk Hf]]. exists (k, proto). split; [reflexivity|].
    apply filter_In. split.
    + apply list_elem_of_In, elem_of_map_to_list. exact Hk.
    + simpl. rewrite StartsWith_empty. simpl.
      apply bool_decide_eq_true, elem_of_list_to_set, list_elem_of_In. exact Hf.
Qed.

Lemma filter_unique_key (f : string -> bool) k v
    (l : list (string * ContentStorageProto)) :
  (forall x, f x = true <-> x = k) ->
  NoDup (List.map fst l) ->
  In (k, v) l ->
  List.filter (fun kv => f kv.1) l = [(k, v)].
Proof.
  intros Hf. induction l as [|[k' v'] l IH]; intros Hnd Hin; [destruct Hin|].
  simpl in Hnd. apply NoDup_cons in Hnd as [Hfresh Hnd].
  simpl. destruct Hin as [Heq | Hin].
  - injection Heq as -> ->. replace (f k) with true by (symmetry; now apply Hf).
    f_equal. apply nothing_in_is_nil. intros [k' v'] Hin.
    apply filter_In in Hin as [Hin Hk']. simpl in Hk'. apply Hf in Hk' as ->.
    apply Hfresh, list_elem_of_In, in_map_iff. exists (k, v'). auto.
  - destruct (f k') eqn:Hk'; [|now apply IH].
    apply Hf in Hk' as ->. destruct Hfresh.
    apply list_elem_of_In, in_map_iff. exists (k, v). auto.
Qed.

(** A successful load of one stored key delivers its record and nothing
    else. *)
Lemma store_load_one_key k proto db :
  db !! k = Some proto ->
  store_load (BindDatabaseKeyFilter (list_to_set [k])) EmptyString db = [proto].
Proof.
  intros Hk. unfold store_load.
  rewrite (filter_unique_key
             (fun x => StartsWith x EmptyString
                       && RunFilter (BindDatabaseKeyFilter (list_to_set [k])) x)
             k proto); [reflexivity | | |].
  - intros x. rewrite StartsWith_empty, andb_true_l.
    unfold RunFilter, DatabaseKeyFilter.
    rewrite bool_decide_eq_true, elem_of_list_to_set, list_elem_of_In. simpl.
    split; [intros [<- | []]; reflexivity | auto].
  - rewrite <- list_fmap_map. apply NoDup_fst_map_to_list.
  - apply list_elem_of_In, elem_of_map_to_list. exact Hk.
Qed.

Lemma third_succeeds n : forall (os : list Outcome),
  Forall (eq Succeeds) (take (S n) os) -> hd Succeeds (drop n os) = Succeeds.
Proof.
  induction n as [|n IH]; intros os Hok.
  - now destruct (script_head_succeeds _ _ Hok).
  - destruct (script_head_succeeds _ _ Hok) as (_ & Htl & _).
    rewrite drop_succ_tl. now apply IH.
Qed.

(** After a commit whose operations are recognised and carried out, the
    records are those the batch leaves and the next outcome of the script
    is the one behind the batch. *)
Lemma commit_then batch callback w :
  forallb supported batch = true ->
  task_queue w = [] ->
  Forall (eq Succeeds) (take (length batch) (outcomes w)) ->
  exists tr,
    quiesce (CommitContentMutation batch callback w)
    = {| database_status_ := database_status_ w;
         storage_database_ :=
           foldl (fun db op => apply_operation op db) (storage_database_ w) batch;
         outcomes := drop (length batch) (outcomes w);
         task_queue := [];
         trace := trace w ++ tr ++ [Confirmed callback true] |}.
Proof.
  intros Hsup Hq Hok.
  destruct (commit_runs_loop batch callback w Hq) as (tr & -> & _).
  destruct (all_succeed_counts _ _ Hsup Hok) as (-> & -> & ->).
  rewrite take_ge by lia. now exists tr.
Qed.

End Delivered.

(** X11.  A successful LoadContent hands its callback the flag true and
    exactly the records stored under one of the requested keys; a
    requested key that is not stored is passed over without an error, and
    the records of the store are left as they were. *)
Theorem load_content_delivers_requested_records keys callback w :
  task_queue w = [] ->
  hd Succeeds (outcomes w) = Succeeds ->
  exists content,
    trace (quiesce (LoadContent keys callback w))
    = trace w
      ++ [Dispatched (LoadEntriesWithFilter
                        (BindDatabaseKeyFilter (list_to_set keys))
                        CreateReadOptions EmptyString);
          Completed (LoadReply true (Some content));
          ContentLoaded callback true
            (List.map (fun proto => (key proto, content_data proto)) content)] /\
    (forall proto,
       In proto content
       <-> exists k, storage_database_ w !! k = Some proto /\ In k keys) /\
    storage_database_ (quiesce (LoadContent keys callback w))
    = storage_database_ w.
Proof.
  intros Hq Hhd. unfold LoadContent. rewrite load_turn by assumption.
  rewrite Hhd. eexists. split; [reflexivity|]. split; [|reflexivity].
  intros proto. apply store_load_keys.
Qed.

Lemma load_content_delivers_requested_records_witness :
  exists content,
    trace (quiesce (LoadContent ["a"; "zz"] 5
                      (idle kOK {["a" := mkProto "a" "1"]} [])))
    = []
      ++ [Dispatched (LoadEntriesWithFilter
                        (BindDatabaseKeyFilter (list_to_set ["a"; "zz"]))
                        CreateReadOptions EmptyString);
          Completed (LoadReply true (Some content));
          ContentLoaded 5 true
            (List.map (fun proto => (key proto, content_data proto)) content)] /\
    (forall proto,
       In proto content
       <-> exists k, ({["a" := mkProto "a" "1"]} : gmap string ContentStorageProto)
                       !! k = Some proto /\ In k ["a"; "zz"]) /\
    storage_database_
      (quiesce (LoadContent ["a"; "zz"] 5
                  (idle kOK {["a" := mkProto "a" "1"]} [])))
    = {["a" := mkProto "a" "1"]}.
Proof.
  exact (load_content_delivers_requested_records ["a"; "zz"] 5
           (idle kOK {["a" := mkProto "a" "1"]} []) eq_refl eq_refl).
Defined.

(** X12.  A successful LoadAllContentKeys hands its callback the flag
    true and every key of the store exactly once: a key is in the list
    exactly when a record is stored under it, and no key is listed
    twice. *)
Theorem load_all_keys_delivers_every_key callback w :
  task_queue w = [] ->
  hd Succeeds (outcomes w) = Succeeds ->
  exists keys,
    trace (quiesce (LoadAllContentKeys callback w))
    = trace w
      ++ [Dispatched LoadKeys; Completed (KeysReply true (Some keys));
          KeysLoaded callback true keys] /\
    (forall k, In k keys <-> is_Some (storage_database_ w !! k)) /\
    NoDup keys.
Proof.
  intros Hq Hhd. rewrite keys_turn by assumption. rewrite Hhd.
  eexists. split; [reflexivity|]. unfold store_keys. split.
  - intros k. rewrite in_map_iff. split.
    + intros [[k' v] [<- Hin]].
      apply list_elem_of_In, elem_of_map_to_list in Hin. simpl. eauto.
    + intros [v Hk]. exists (k, v). split; [reflexivity|].
      now apply list_elem_of_In, elem_of_map_to_list.
  - rewrite <- list_fmap_map. apply NoDup_fst_map_to_list.
Qed.

Lemma load_all_keys_delivers_every_key_witness :
  exists keys,
    trace (quiesce (LoadAllContentKeys 5
                      (idle kOK {["a" := mkProto "a" "1"]} [])))
    = []
      ++ [Dispatched LoadKeys; Completed (KeysReply true (Some keys));
          KeysLoaded 5 true keys] /\
    (forall k, In k keys
               <-> is_Some (({["a" := mkProto "a" "1"]}
                               : gmap string ContentStorageProto) !! k)) /\
    NoDup keys.
Proof.
  exact (load_all_keys_delivers_every_key 5
           (idle kOK {["a" := mkProto "a" "1"]} []) eq_refl eq_refl).
Defined.

(** X13.  A read is made once and answered once: each of LoadContent,
    LoadContentByPrefix and LoadAllContentKeys, made while nothing else is
    waiting, makes exactly one store call and runs its callback exactly
    once, with the flag the store reported, be it true or false; a read
    that failed is not tried again, and no read changes the records or
    the status. *)
Theorem read_is_answered_once_with_store_flag keys prefix callback w :
  task_queue w = [] ->
  (exists content results,
     quiesce (LoadContent keys callback w)
     = {| database_status_ := database_status_ w;
          storage_database_ := storage_database_ w;
          outcomes := tl (outcomes w);
          task_queue := [];
          trace :=
            trace w
            ++ [Dispatched (LoadEntriesWithFilter
                              (BindDatabaseKeyFilter (list_to_set keys))
                              CreateReadOptions EmptyString);
                Completed (LoadReply (succeeded (hd Succeeds (outcomes w))) content);
                ContentLoaded callback (succeeded (hd Succeeds (outcomes w)))
                  results] |}) /\
  (exists content results,
     quiesce (LoadContentByPrefix prefix callback w)
     = {| database_status_ := database_status_ w;
          storage_database_ := storage_database_ w;
          outcomes := tl (outcomes w);
          task_queue := [];
          trace :=
            trace w
            ++ [Dispatched (LoadEntriesWithFilter
                              (BindDatabasePrefixFilter prefix)
                              CreateReadOptions EmptyString);
                Completed (LoadReply (succeeded (hd Succeeds (outcomes w))) content);
                ContentLoaded callback (succeeded (hd Succeeds (outcomes w)))
                  results] |}) /\
  (exists delivered found,
     quiesce (LoadAllContentKeys callback w)
     = {| database_status_ := database_status_ w;
          storage_database_ := storage_database_ w;
          outcomes := tl (outcomes w);
          task_queue := [];
          trace :=
            trace w
            ++ [Dispatched LoadKeys;
                Completed (KeysReply (succeeded (hd Succeeds (outcomes w))) delivered);
                KeysLoaded callback (succeeded (hd Succeeds (outcomes w))) found] |}).
Proof.
  intros Hq. split; [|split].
  - unfold LoadContent. rewrite load_turn by assumption. eauto.
  - unfold LoadContentByPrefix. rewrite load_turn by assumption. eauto.
  - rewrite keys_turn by assumption. eauto.
Qed.

Lemma read_is_answered_once_with_store_flag_witness :
  (exists content results,
     quiesce (LoadContent ["a"] 5 (idle kOK {["a" := mkProto "a" "1"]} [Fails]))
     = {| database_status_ := kOK;
          storage_database_ := {["a" := mkProto "a" "1"]};
          outcomes := [];
          task_queue := [];
          trace :=
            [Dispatched (LoadEntriesWithFilter
                           (BindDatabaseKeyFilter (list_to_set ["a"]))
                           CreateReadOptions EmptyString);
             Completed (LoadReply false content);
             ContentLoaded 5 false results] |}) /\
  (exists content results,
     quiesce (LoadContentByPrefix "a" 5
                (idle kOK {["a" := mkProto "a" "1"]} [Fails]))
     = {| database_status_ := kOK;
          storage_database_ := {["a" := mkProto "a" "1"]};
          outcomes := [];
          task_queue := [];
          trace :=
            [Dispatched (LoadEntriesWithFilter
                           (BindDatabasePrefixFilter "a")
                           CreateReadOptions EmptyString);
             Completed (LoadReply false content);
             ContentLoaded 5 false results] |}) /\
  (exists delivered found,
     quiesce (LoadAllContentKeys 5 (idle kOK {["a" := mkProto "a" "1"]} [Fails]))
     = {| database_status_ := kOK;
          storage_database_ := {["a" := mkProto "a" "1"]};
          outcomes := [];
          task_queue := [];
          trace :=
            [Dispatched LoadKeys;
             Completed (KeysReply false delivered);
             KeysLoaded 5 false found] |}).
Proof.
  exact (read_is_answered_once_with_store_flag ["a"] "a" 5
           (idle kOK {["a" := mkProto "a" "1"]} [Fails]) eq_refl).
Defined.

(** ** Writing and reading back *)

Section RoundTrip.

Implicit Types (w : World) (db : gmap string ContentStorageProto).

Lemma append_cons c (s t : string) :
  String.append (String c s) t = String c (String.append s t).
Proof. reflexivity. Qed.

Lemma append_assoc (s1 s2 s3 : string) :
  String.append (String.append s1 s2) s3 = String.append s1 (String.append s2 s3).
Proof.
  induction s1 as [|c s1 IH]; [reflexivity|].
  rewrite !append_cons. simpl. now rewrite IH.
Qed.

Lemma length_append (s1 s2 : string) :
  String.length (String.append s1 s2) = String.length s1 + String.length s2.
Proof.
  induction s1 as [|c s1 IH]; [reflexivity|].
  rewrite !append_cons. simpl. now rewrite IH.
Qed.

Lemma append_nil_r (s : string) : String.append s EmptyString = s.
Proof.
  induction s as [|c s IH]; [reflexivity|]. rewrite append_cons. now rewrite IH.
Qed.

Lemma append_cancel_nil (s rest : string) :
  s = String.append s rest -> rest = EmptyString.
Proof.
  induction s as [|c s IH]; intros H; [now symmetry|].
  rewrite append_cons in H. injection H as H. now apply IH.
Qed.

(** A key that starts with a longer prefix starts with every shorter
    one. *)
Lemma StartsWith_shorter p q k :
  StartsWith k (String.append p q) = true -> StartsWith k p = true.
Proof.
  rewrite !StartsWith_spec. intros [rest ->].
  exists (String.append q rest). apply append_assoc.
Qed.

(** The world after a commit of recognised operations that the store
    carries out, followed by a load that the store carries out too: what
    the load finds is decided by the records the batch leaves. *)
Lemma commit_then_load batch callback load_callback key_filter w :
  forallb supported batch = true ->
  task_queue w = [] ->
  Forall (eq Succeeds) (take (S (length batch)) (outcomes w)) ->
  last (trace (quiesce
                 (call_store
                    (LoadEntriesWithFilter key_filter CreateReadOptions EmptyString)
                    (BindOnLoadEntriesForLoadContent load_callback)
                    (quiesce (CommitContentMutation batch callback w)))))
  = Some (ContentLoaded load_callback true
            (List.map (fun proto => (key proto, content_data proto))
               (store_load key_filter EmptyString
                  (foldl (fun db op => apply_operation op db)
                         (storage_database_ w) batch)))).
Proof.
  intros Hsup Hq Hok.
  assert (Forall (eq Succeeds) (take (length batch) (outcomes w))) as Hok1.
  { apply Forall_take with (n := length batch) in Hok.
    rewrite take_take in Hok.
    now replace (length batch `min` S (length batch)) with (length batch)
      in Hok by lia. }
  destruct (commit_then batch callback w Hsup Hq Hok1) as (tr & ->).
  rewrite load_turn by reflexivity.
  cbn [outcomes storage_database_ trace].
  rewrite (third_succeeds _ _ Hok). apply last_of_three.
Qed.

End RoundTrip.

(** X14.  What is written can be read back: after a commit that ends
    with an upsert of a key, with every operation recognised and every
    call carried out, a LoadContent of that key hands its callback true
    and exactly one record, the key with the value of that upsert,
    whatever the store held under the key before and whatever the earlier
    operations of the batch did to it. *)
Theorem upsert_then_load_round_trip batch operation callback load_callback w :
  forallb supported batch = true ->
  type_ operation = CONTENT_UPSERT ->
  task_queue w = [] ->
  Forall (eq Succeeds) (take (length batch + 2) (outcomes w)) ->
  last (trace (quiesce
                 (LoadContent [key_ operation] load_callback
                    (quiesce (CommitContentMutation (batch ++ [operation])
                                callback w)))))
  = Some (ContentLoaded load_callback true
            [(key_ operation, value_ operation)]).
Proof.
  intros Hsup Htype Hq Hok. unfold LoadContent.
  rewrite commit_then_load.
  - rewrite foldl_app. simpl foldl. unfold apply_operation at 1. rewrite Htype.
    rewrite (store_load_one_key (key_ operation)
               (mkProto (key_ operation) (value_ operation)));
      [reflexivity | apply lookup_insert_eq].
  - rewrite forallb_app, Hsup. simpl. unfold supported. now rewrite Htype.
  - assumption.
  - rewrite length_app. simpl length.
    now replace (S (length batch + 1)) with (length batch + 2) by lia.
Qed.

Lemma upsert_then_load_round_trip_witness :
  last (trace (quiesce
                 (LoadContent [key_ (Upsert "a" "2")] 5
                    (quiesce (CommitContentMutation
                                ([Upsert "a" "1"; DeleteAll] ++ [Upsert "a" "2"])
                                7 (idle kOK ∅ []))))))
  = Some (ContentLoaded 5 true
            [(key_ (Upsert "a" "2"), value_ (Upsert "a" "2"))]).
Proof.
  exact (upsert_then_load_round_trip [Upsert "a" "1"; DeleteAll] (Upsert "a" "2")
           7 5 (idle kOK ∅ []) eq_refl eq_refl eq_refl (Forall_nil_2 _)).
Defined.

(** X15.  What is deleted cannot be read back: after a commit that ends
    with a delete of a key, with every operation recognised and every call
    carried out, a LoadContent of that key hands its callback true and no
    record. *)
Theorem delete_then_load_finds_nothing batch operation callback load_callback w :
  forallb supported batch = true ->
  type_ operation = CONTENT_DELETE ->
  task_queue w = [] ->
  Forall (eq Succeeds) (take (length batch + 2) (outcomes w)) ->
  last (trace (quiesce
                 (LoadContent [key_ operation] load_callback
                    (quiesce (CommitContentMutation (batch ++ [operation])
                                callback w)))))
  = Some (ContentLoaded load_callback true []).
Proof.
  intros Hsup Htype Hq Hok. unfold LoadContent.
  rewrite commit_then_load.
  - rewrite foldl_app. simpl foldl. unfold apply_operation at 1. rewrite Htype.
    rewrite (nothing_in_is_nil (store_load _ _ _)); [reflexivity|].
    intros proto Hin. apply store_load_keys in Hin as [k [Hk [<- | []]]].
    rewrite lookup_delete_eq in Hk. discriminate.
  - rewrite forallb_app, Hsup. simpl. unfold supported. now rewrite Htype.
  - assumption.
  - rewrite length_app. simpl length.
    now replace (S (length batch + 1)) with (length batch + 2) by lia.
Qed.

Lemma delete_then_load_finds_nothing_witness :
  last (trace (quiesce
                 (LoadContent [key_ (Delete "a")] 5
                    (quiesce (CommitContentMutation
                                ([Upsert "a" "1"] ++ [Delete "a"])
                                7 (idle kOK ∅ []))))))
  = Some (ContentLoaded 5 true []).
Proof.
  exact (delete_then_load_finds_nothing [Upsert "a" "1"] (Delete "a")
           7 5 (idle kOK ∅ []) eq_refl eq_refl eq_refl (Forall_nil_2 _)).
Defined.

(** X16.  A delete by prefix covers every longer prefix: after a commit
    that ends with a delete by a prefix, with every operation recognised
    and every call carried out, a LoadContentByPrefix with that prefix, or
    with that prefix followed by anything more, hands its callback true
    and no record. *)
Theorem delete_by_prefix_then_load_finds_nothing
    batch operation more callback load_callback w :
  forallb supported batch = true ->
  type_ operation = CONTENT_DELETE_BY_PREFIX ->
  task_queue w = [] ->
  Forall (eq Succeeds) (take (length batch + 2) (outcomes w)) ->
  last (trace (quiesce
                 (LoadContentByPrefix (String.append (prefix_ operation) more)
                    load_callback
                    (quiesce (CommitContentMutation (batch ++ [operation])
                                callback w)))))
  = Some (ContentLoaded load_callback true []).
Proof.
  intros Hsup Htype Hq Hok. unfold LoadContentByPrefix.
  rewrite commit_then_load.
  - rewrite foldl_app. simpl foldl. unfold apply_operation at 1. rewrite Htype.
    rewrite (nothing_in_is_nil (store_load _ _ _)); [reflexivity|].
    intros proto Hin. apply store_load_prefix in Hin as [k [Hk Hstarts]].
    apply map_lookup_filter_Some in Hk as [_ Hk]. simpl in Hk.
    apply StartsWith_shorter in Hstarts. congruence.
  - rewrite forallb_app, Hsup. simpl. unfold supported. now rewrite Htype.
  - assumption.
  - rewrite length_app. simpl length.
    now replace (S (length batch + 1)) with (length batch + 2) by lia.
Qed.

Lemma delete_by_prefix_then_load_finds_nothing_witness :
  last (trace (quiesce
                 (LoadContentByPrefix
                    (String.append (prefix_ (DeleteByPrefix "a")) "b") 5
                    (quiesce (CommitContentMutation
                                ([Upsert "ab" "1"; Upsert "c" "2"]
                                   ++ [DeleteByPrefix "a"])
                                7 (idle kOK ∅ []))))))
  = Some (ContentLoaded 5 true []).
Proof.
  exact (delete_by_prefix_then_load_finds_nothing
           [Upsert "ab" "1"; Upsert "c" "2"] (DeleteByPrefix "a") "b"
           7 5 (idle kOK ∅ []) eq_refl eq_refl eq_refl (Forall_nil_2 _)).
Defined.

(** X17.  The prefix filter orders keys by extension: every key is
    accepted with itself as the prefix; a key accepted with a prefix is at
    least as long as it and is accepted with every shorter start of that
    prefix; and two strings that accept each other are equal. *)
Theorem prefix_filter_orders_keys p q k :
  DatabasePrefixFilter k k = true /\
  (DatabasePrefixFilter (String.append p q) k = true ->
   DatabasePrefixFilter p k = true) /\
  (DatabasePrefixFilter p k = true -> String.length p <= String.length k) /\
  (DatabasePrefixFilter p k = true -> DatabasePrefixFilter k p = true -> p = k).
Proof.
  unfold DatabasePrefixFilter. split; [|split; [|split]].
  - apply StartsWith_spec. exists EmptyString. symmetry. apply append_nil_r.
  - apply StartsWith_shorter.
  - intros H. apply StartsWith_spec in H as [rest ->].
    rewrite length_append. lia.
  - intros H1 H2. apply StartsWith_spec in H1 as [r1 H1].
    apply StartsWith_spec in H2 as [r2 H2].
    rewrite H1 in H2 at 1. rewrite append_assoc in H2.
    apply append_cancel_nil in H2.
    destruct r1; [|discriminate]. rewrite append_nil_r in H1. congruence.
Qed.

(** ** One call in flight *)

Lemma step_keeps_one_waiting (w : World) :
  length (task_queue w) <= 1 -> length (task_queue (step w)) <= 1.
Proof.
  unfold step. destruct (task_queue w) as [|t [|t' q]] eqn:Hq; simpl;
    intros Hlen; [rewrite Hq; simpl; lia | | lia].
  destruct t as [on_done reply | callback success]; simpl; [|lia].
  destruct on_done as [| cb | cb | m cb],
           reply as [st | ok | ok [c|] | ok [ks|]];
    simpl; try lia.
  unfold OnOperationCommitted, PerformNextOperation.
  destruct ok; simpl; [|lia].
  destruct m as [|operation m]; simpl; [lia|].
  destruct (type_ operation); simpl; lia.
Qed.

Lemma commit_queues_one (batch : ContentMutation) callback (w : World) :
  task_queue w = [] ->
  length (task_queue (CommitContentMutation batch callback w)) <= 1 /\
  pending (CommitContentMutation batch callback w) <= Nat.max 1 (length batch).
Proof.
  intros Hq. unfold pending.
  destruct batch as [|operation rest].
  - simpl. rewrite Hq. simpl. lia.
  - rewrite commit_nonempty. unfold PerformNextOperation. simpl.
    destruct (type_ operation); simpl; rewrite Hq; simpl; lia.
Qed.

(** X18.  A mutation never has more than one task waiting: from the
    moment a mutation is committed while nothing else is waiting, through
    every turn of the owner sequence, at most one completion or posted
    confirmation of it is outstanding, so no operation is sent to the
    store while the call of another operation of the batch is still in
    flight. *)
Theorem commit_has_one_call_in_flight batch callback w turns :
  task_queue w = [] ->
  length (task_queue (run turns (CommitContentMutation batch callback w))) <= 1.
Proof.
  intros Hq.
  destruct (commit_queues_one batch callback w Hq) as [Hone _].
  revert Hone. generalize (CommitContentMutation batch callback w).
  induction turns as [|turns IH]; intros w' Hone; simpl; [assumption|].
  apply IH. now apply step_keeps_one_waiting.
Qed.

Lemma commit_has_one_call_in_flight_witness :
  length
    (task_queue
       (run 2 (CommitContentMutation
                 [Upsert "a" "1"; Upsert "b" "2"; DeleteAll] 7 (idle kOK ∅ []))))
  <= 1.
Proof.
  exact (commit_has_one_call_in_flight
           [Upsert "a" "1"; Upsert "b" "2"; DeleteAll] 7 (idle kOK ∅ []) 2
           eq_refl).
Defined.

(** X19.  A commit is over after one turn of the owner sequence per
    operation: for a mutation committed while nothing else is waiting, as
    many turns as the batch has operations (one turn for an empty batch)
    drain the owner sequence, and further turns change nothing. *)
Theorem commit_drains_in_one_turn_per_operation batch callback w turns :
  task_queue w = [] ->
  Nat.max 1 (length batch) <= turns ->
  run turns (CommitContentMutation batch callback w)
  = quiesce (CommitContentMutation batch callback w) /\
  task_queue (run turns (CommitContentMutation batch callback w)) = [].
Proof.
  intros Hq Hturns.
  destruct (commit_queues_one batch callback w Hq) as [_ Hpending].
  rewrite run_enough by lia. split; [reflexivity | apply quiesce_drains].
Qed.

Lemma commit_drains_in_one_turn_per_operation_witness :
  run 3 (CommitContentMutation
           [Upsert "a" "1"; Upsert "b" "2"; DeleteAll] 7 (idle kOK ∅ []))
  = quiesce (CommitContentMutation
               [Upsert "a" "1"; Upsert "b" "2"; DeleteAll] 7 (idle kOK ∅ [])) /\
  task_queue
    (run 3 (CommitContentMutation
              [Upsert "a" "1"; Upsert "b" "2"; DeleteAll] 7 (idle kOK ∅ [])))
  = [].
Proof.
  apply (commit_drains_in_one_turn_per_operation
           [Upsert "a" "1"; Upsert "b" "2"; DeleteAll] 7 (idle kOK ∅ []) 3).
  - reflexivity.
  - simpl. lia.
Defined.
